(** * ChemSchematicResolver: the region model and the proximity graph

    A shallow embedding of [chemschematicdiagramextractor/model.py]:
    the classes [Rect], [Panel], [Diagram], [Label], [Figure] and [Graph], followed
    by the properties of the rectangle predicates, of the attribute
    accessors and of [Graph.kruskal].

    Python integers are unbounded and are modelled by [Z]; a Python list is
    a [list]; an edge [[u, v, w]] is a triple of integers, the weight
    included: [kruskal] only compares and the properties only add weights.
    A Python float is an IEEE 754 binary64 number, a [spec_float] with
    its correctly rounded operations.  Calls that can raise return an
    [outcome], or an [fres] where only float arithmetic can fail. *)

From Stdlib Require Import String.
From Stdlib Require Import ZArith List Bool Lia Permutation Sorted.
From Stdlib Require Import Reals Lra SpecFloat.
Import ListNotations.

Local Open Scope Z_scope.

(** ** Outcomes of a call *)

(** The list whose subscript raised [IndexError]. *)
Inductive seq_site : Type := EdgeList | ParentList | RankList.

Inductive exn : Type :=
| IndexError (site : seq_site)
| RecursionError
| AttributeError (type_name attr : string).

(** [Unfinished] is not a Python behaviour: it is what the model of a
    [while] loop answers when its step budget is used up. *)
Inductive outcome (A : Type) : Type :=
| Returns (a : A)
| Raises (e : exn)
| Unfinished.

Arguments Returns {A} a.
Arguments Raises {A} e.
Arguments Unfinished {A}.

Definition bind {A B : Type} (c : outcome A) (k : A -> outcome B) : outcome B :=
  match c with
  | Returns a => k a
  | Raises e => Raises e
  | Unfinished => Unfinished
  end.

Declare Scope py_scope.
Delimit Scope py_scope with py.
Notation "x <- c ;; k" := (bind c (fun x => k))
  (at level 61, c at next level, right associativity) : py_scope.
Notation "' pat <- c ;; k" := (bind c (fun x => match x with pat => k end))
  (at level 61, pat pattern, c at next level, right associativity) : py_scope.
Local Open Scope py_scope.

(** ** Python lists *)

Module PyList.

(** The position a subscript [i] denotes in a list of length [len]:
    a negative subscript counts from the end. *)
Definition norm_index (len i : Z) : option nat :=
  let i' := if i <? 0 then i + len else i in
  if (i' <? 0) || (len <=? i') then None else Some (Z.to_nat i').

(** [l[i]] *)
Definition getitem {A : Type} (site : seq_site) (l : list A) (i : Z) : outcome A :=
  match norm_index (Z.of_nat (length l)) i with
  | Some k =>
      match nth_error l k with
      | Some x => Returns x
      | None => Raises (IndexError site)
      end
  | None => Raises (IndexError site)
  end.

Fixpoint update {A : Type} (l : list A) (k : nat) (x : A) : list A :=
  match l, k with
  | [], _ => []
  | _ :: t, O => x :: t
  | h :: t, S k' => h :: update t k' x
  end.

(** [l[i] = x] *)
Definition setitem {A : Type} (site : seq_site) (l : list A) (i : Z) (x : A)
  : outcome (list A) :=
  match norm_index (Z.of_nat (length l)) i with
  | Some k => Returns (update l k x)
  | None => Raises (IndexError site)
  end.

(** [range(n)] *)
Definition range (n : Z) : list Z := map Z.of_nat (seq 0 (Z.to_nat n)).

End PyList.

Import PyList.

(** ** Python floats *)

(** A Python [float] is an IEEE 754 binary64 number: a [spec_float] with a
    53-bit mantissa and the exponent bound 1024, handled by the
    correctly rounded operations of [SpecFloat]. *)
Module PyFloat.

Abbreviation float := spec_float.

Definition prec : Z := 53.

Definition emax : Z := 1024.

(** A computation on floats returns, or raises [OverflowError]. *)
Inductive fres (A : Type) : Type :=
| FOk (a : A)
| OverflowError.

Arguments FOk {A} a.
Arguments OverflowError {A}.

Definition fbind {A B : Type} (c : fres A) (k : A -> fres B) : fres B :=
  match c with
  | FOk a => k a
  | OverflowError => OverflowError
  end.

(** [a / 2] on an int [a] (true division): the quotient rounded to the
    nearest float, a tie to the even one; [OverflowError] when the
    rounded quotient is beyond the largest float. *)
Definition truediv2 (a : Z) : fres float :=
  match binary_normalize prec emax a (-1) false with
  | S754_infinity _ => OverflowError
  | f => FOk f
  end.


Definition abs (x : float) : float := SFabs x.

(** The real number a finite float stands for. *)
Definition to_R (f : float) : R :=
  match f with
  | S754_finite s m e => (IZR (cond_Zopp s (Zpos m)) * powerRZ 2 e)%R
  | _ => 0%R
  end.


(** [np.around(x)] on a float: the nearest integer, as a float, a tie
    going to the even one; a zero result keeps the sign of [x]. *)
Definition around (x : float) : float :=
  match x with
  | S754_finite s m e =>
      if 0 <=? e then x
      else
        let q := Zpos m / 2 ^ (- e) in
        let r := Zpos m mod 2 ^ (- e) in
        let n := if 2 * r <? 2 ^ (- e) then q
                 else if 2 ^ (- e) <? 2 * r then q + 1
                 else if Z.even q then q else q + 1 in
        binary_normalize prec emax (cond_Zopp s n) 0 s
  | _ => x
  end.

(** [float(z)], the conversion an int undergoes when it meets a float:
    rounded to the nearest float, [OverflowError] when it is too large. *)
Definition of_int (z : Z) : fres float :=
  match binary_normalize prec emax z 0 false with
  | S754_infinity _ => OverflowError
  | f => FOk f
  end.

(** The float [0.5] and the product of two floats. *)
Definition half : float := binary_normalize prec emax 1 (-1) false.

Definition mul (x y : float) : float := SFmul prec emax x y.

(** [int(x)] on a float: the fraction is dropped; [None] stands for the
    exception raised on an infinity or a NaN. *)
Definition to_int (x : float) : option Z :=
  match x with
  | S754_zero _ => Some 0
  | S754_finite s m e =>
      Some (cond_Zopp s (if 0 <=? e then Zpos m * 2 ^ e else Zpos m / 2 ^ (- e)))
  | _ => None
  end.

(** Neither an infinity nor a NaN. *)
Definition is_finite (f : float) : bool :=
  match f with
  | S754_zero _ | S754_finite _ _ _ => true
  | _ => false
  end.

End PyFloat.

Import PyFloat.

(** ** class Rect *)

Record Rect : Type := mkRect { left : Z; right : Z; top : Z; bottom : Z }.

Module RectM.

Definition width (self : Rect) : Z := right self - left self.

Definition height (self : Rect) : Z := bottom self - top self.

Definition perimeter (self : Rect) : Z := 2 * height self + 2 * width self.

Definition area (self : Rect) : Z := width self * height self.

(** [center]: the two sums are ints, each division by 2 gives a float or
    raises. *)
Definition center (self : Rect) : fres (float * float) :=
  fbind (truediv2 (left self + right self)) (fun xcenter =>
  fbind (truediv2 (bottom self + top self)) (fun ycenter =>
  FOk (xcenter, ycenter))).

Definition center_px (self : Rect) : fres (float * float) :=
  fbind (center self) (fun c =>
  let '(xcenter, ycenter) := c in
  FOk (around xcenter, around ycenter)).

Definition contains (self other_rect : Rect) : bool :=
  (left other_rect >=? left self) && (right other_rect <=? right self) &&
  (top other_rect >=? top self) && (bottom other_rect <=? bottom self).

Definition overlaps (self other_rect : Rect) : bool :=
  (Z.min (right self) (right other_rect) >? Z.max (left self) (left other_rect)) &&
  (Z.min (bottom self) (bottom other_rect) >? Z.max (top self) (top other_rect)).




End RectM.

(** ** class Panel(Rect) *)

(** An instance holds the four edges, [tag], and the backing field
    [_repeating], absent until the setter has run. *)
Record Panel : Type := mkPanel {
  rect : Rect;
  tag : string;
  _repeating : option bool
}.

Module PanelM.

(** [@repeating.setter]: [self._repeating = repeating] *)
Definition repeating_set (self : Panel) (repeating : bool) : Panel :=
  {| rect := rect self; tag := tag self; _repeating := Some repeating |}.

(** [@property repeating]: [return self.repeating].  The attribute read in
    the body is the property itself, so the body is one more call of the
    getter; [depth] is the number of frames the interpreter still allows. *)
Fixpoint repeating_get (depth : nat) (self : Panel) : outcome bool :=
  match depth with
  | O => Raises RecursionError
  | S d => repeating_get d self
  end.

(** [__init__]: the assignment [self.repeating = False] goes through the
    setter. *)
Definition init (left right top bottom : Z) (tag : string) : Panel :=
  let self := {| rect := mkRect left right top bottom; tag := tag;
                 _repeating := None |} in
  repeating_set self false.

End PanelM.

(** ** class Label(Panel) and class Diagram(Panel) *)

Record Label : Type := mkLabel {
  label_panel : Panel;
  _text : option string
}.

Record Diagram : Type := mkDiagram {
  diagram_panel : Panel;
  _label : option Label;
  _smile : option string
}.

Module LabelM.

Definition init (left right top bottom : Z) (tag : string) : Label :=
  {| label_panel := PanelM.init left right top bottom tag; _text := None |}.

Definition text_set (self : Label) (text : string) : Label :=
  {| label_panel := label_panel self; _text := Some text |}.

(** [@property text]: [return self._text]; the constructor does not create
    [_text]. *)
Definition text (self : Label) : outcome string :=
  match _text self with
  | None => Raises (AttributeError "Label" "_text")
  | Some t => Returns t
  end.

End LabelM.

Module DiagramM.

(** [__init__(self, *args, label=None, smile=None)] *)
Definition init (left right top bottom : Z) (tag : string)
           (label : option Label) (smile : option string) : Diagram :=
  {| diagram_panel := PanelM.init left right top bottom tag;
     _label := label; _smile := smile |}.

Definition label (self : Diagram) : option Label := _label self.

Definition label_set (self : Diagram) (label : option Label) : Diagram :=
  {| diagram_panel := diagram_panel self; _label := label; _smile := _smile self |}.

Definition smile (self : Diagram) : option string := _smile self.

Definition smile_set (self : Diagram) (smile : option string) : Diagram :=
  {| diagram_panel := diagram_panel self; _label := _label self; _smile := smile |}.

(** [self.label.tag]: [None] has no attribute [tag]. *)
Definition label_tag (self : Diagram) : outcome string :=
  match label self with
  | None => Raises (AttributeError "NoneType" "tag")
  | Some l => Returns (tag (label_panel l))
  end.

(** ['%s' % x] for an optional string. *)
Definition fmt_opt (x : option string) : string :=
  match x with
  | None => "None"
  | Some s => s
  end.

Definition repr (self : Diagram) : outcome string :=
  t <- label_tag self ;;
  Returns ("Diagram(label=" ++ t ++ ", smile=" ++ fmt_opt (smile self))%string.

Definition str (self : Diagram) : outcome string :=
  t <- label_tag self ;;
  Returns ("<Diagram (" ++ t ++ ", " ++ fmt_opt (smile self) ++ ")>")%string.

End DiagramM.

(** ** class Graph *)

(** An edge [[u, v, w]]. *)
Abbreviation edge := (Z * Z * Z)%type.

(** [item[2]], the sort key. *)
Definition weight (item : edge) : Z := snd item.

Record Graph : Type := mkGraph { V : Z; graph : list edge }.

Module GraphM.

Definition init (vertices : Z) : Graph := {| V := vertices; graph := [] |}.

Definition addEdge (self : Graph) (u v w : Z) : Graph :=
  {| V := V self; graph := graph self ++ [(u, v, w)] |}.

(** [find]: climbs the [parent] links; [depth] is the number of frames
    the interpreter still allows. *)
Fixpoint find (depth : nat) (parent : list Z) (i : Z) : outcome Z :=
  match depth with
  | O => Raises RecursionError
  | S d =>
      p <- getitem ParentList parent i ;;
      if p =? i then Returns i
      else
        p <- getitem ParentList parent i ;;
        find d parent p
  end.

(** [union]: returns the updated [parent] and [rank]. *)
Definition union (depth : nat) (parent rank : list Z) (x y : Z)
  : outcome (list Z * list Z) :=
  xroot <- find depth parent x ;;
  yroot <- find depth parent y ;;
  rx <- getitem RankList rank xroot ;;
  ry <- getitem RankList rank yroot ;;
  if rx <? ry then
    parent' <- setitem ParentList parent xroot yroot ;;
    Returns (parent', rank)
  else
    rx <- getitem RankList rank xroot ;;
    ry <- getitem RankList rank yroot ;;
    if rx >? ry then
      parent' <- setitem ParentList parent yroot xroot ;;
      Returns (parent', rank)
    else
      parent' <- setitem ParentList parent yroot xroot ;;
      rx <- getitem RankList rank xroot ;;
      rank' <- setitem RankList rank xroot (rx + 1) ;;
      Returns (parent', rank').

(** [sorted(self.graph, key=lambda item: item[2])]: the stable sort by
    weight, as a straight insertion sort. *)
Fixpoint insert (x : edge) (l : list edge) : list edge :=
  match l with
  | [] => [x]
  | y :: l' => if weight x <=? weight y then x :: l else y :: insert x l'
  end.

Fixpoint sorted (l : list edge) : list edge :=
  match l with
  | [] => []
  | x :: l' => insert x (sorted l')
  end.

(** The [for node in range(self.V)] loop. *)
Definition make_sets (n : Z) : list Z * list Z :=
  fold_left (fun pr node => (fst pr ++ [node], snd pr ++ [0]))
            (range n) ([], []).

(** The [while e < self.V - 1] loop; [steps] bounds the number of
    iterations the model follows. *)
Fixpoint kruskal_loop (steps depth : nat) (V : Z) (graph : list edge)
         (i e : Z) (parent rank : list Z) (result : list edge)
  : outcome (list edge) :=
  match steps with
  | O => Unfinished
  | S k =>
      if e <? V - 1 then
        '(u, v, w) <- getitem EdgeList graph i ;;
        let i := i + 1 in
        x <- find depth parent u ;;
        y <- find depth parent v ;;
        if negb (x =? y) then
          let e := e + 1 in
          let result := result ++ [(u, v, w)] in
          '(parent, rank) <- union depth parent rank x y ;;
          kruskal_loop k depth V graph i e parent rank result
        else
          kruskal_loop k depth V graph i e parent rank result
      else Returns result
  end.

(** [kruskal]: the outcome of the call and the object after it
    ([self.graph] is rebound to the sorted list before any subscript is
    evaluated). *)
Definition kruskal (depth : nat) (self : Graph) : outcome (list edge) * Graph :=
  let graph' := sorted (graph self) in
  let self' := {| V := V self; graph := graph' |} in
  let '(parent, rank) := make_sets (V self) in
  (kruskal_loop (S (length graph')) depth (V self) graph' 0 0 parent rank [], self').

(** A graph built by successive [addEdge] calls. *)
Definition build (vertices : Z) (es : list edge) : Graph :=
  fold_left (fun g '(u, v, w) => addEdge g u v w) es (init vertices).

End GraphM.

Import GraphM.

(** ** Graph-theoretic vocabulary *)

(** Every end point of every edge is a vertex of [{0 .. V-1}]. *)
Definition wf_edges (V : Z) (es : list edge) : Prop :=
  forall u v w, In (u, v, w) es -> (0 <= u < V) /\ (0 <= v < V).

(** [conn es x y]: [x] and [y] are joined by a walk along edges of [es]. *)
Inductive conn (es : list edge) : Z -> Z -> Prop :=
| conn_refl x : conn es x x
| conn_edge u v w : In (u, v, w) es -> conn es u v
| conn_sym x y : conn es x y -> conn es y x
| conn_trans x y z : conn es x y -> conn es y z -> conn es x z.

(** One component: some vertex reaches every vertex. *)
Definition connected (V : Z) (es : list edge) : Prop :=
  exists r, 0 <= r < V /\ forall x, 0 <= x < V -> conn es r x.

(** At least two components. *)
Definition disconnected (V : Z) (es : list edge) : Prop :=
  exists x y, 0 <= x < V /\ 0 <= y < V /\ ~ conn es x y.

(** No edge closes a cycle with the edges after it. *)
Fixpoint forest (es : list edge) : Prop :=
  match es with
  | [] => True
  | (u, v, _) :: es' => ~ conn es' u v /\ forest es'
  end.

(** A spanning tree of the graph [(V, es)]: [V-1] edges of [es] that join
    all the vertices. *)
Definition spanning_tree (V : Z) (es t : list edge) : Prop :=
  incl t es /\ Z.of_nat (length t) = V - 1 /\ connected V t.

Definition total_weight (es : list edge) : Z :=
  fold_right (fun e acc => weight e + acc) 0 es.

(** Ascending by weight. *)
Definition weight_le (a b : edge) : Prop := weight a <= weight b.

Definition ascending (es : list edge) : Prop := StronglySorted weight_le es.

Definition descending (es : list edge) : Prop :=
  StronglySorted (fun a b => weight b <= weight a) es.

(** [k] is [l] with some elements left out, order kept. *)
Inductive subseq {A : Type} : list A -> list A -> Prop :=
| subseq_nil : subseq [] []
| subseq_skip x k l : subseq k l -> subseq k (x :: l)
| subseq_take x k l : subseq k l -> subseq (x :: k) (x :: l).

(** A canonical representative of the component of each vertex: merging
    [a] into [b] sends the class of [a] to the representative of [b]. *)
Definition merge (a b : Z) (f : Z -> Z) : Z -> Z :=
  fun x => if f x =? f a then f b else f x.

Fixpoint label (es : list edge) : Z -> Z :=
  match es with
  | [] => fun x => x
  | (u, v, _) :: es' => merge u v (label es')
  end.

Definition is_rep (es : list edge) (x : Z) : bool := label es x =? x.

(** The representatives among the vertices, one per component. *)
Definition reps (V : Z) (es : list edge) : list Z := filter (is_rep es) (range V).

Definition ncomp (V : Z) (es : list edge) : nat := length (reps V es).

(** The edges of weight at most [c]. *)
Definition upto (c : Z) (es : list edge) : list edge :=
  filter (fun e => weight e <=? c) es.

(** ** The disjoint-set forest *)

(** [l[i]] for a subscript known to be in range. *)
Definition item (l : list Z) (i : Z) : Z := nth (Z.to_nat i) l 0.

(** [root parent i r]: climbing the [parent] links from [i] ends in [r]. *)
Inductive root (parent : list Z) : Z -> Z -> Prop :=
| root_self i : item parent i = i -> root parent i i
| root_step i r :
    item parent i <> i -> root parent (item parent i) r -> root parent i r.

(** The shape of [parent] and [rank] between two iterations: links stay
    among the vertices, ranks are bounded by [M] and grow along links. *)
Record uf_inv (V : Z) (parent rank : list Z) (M : Z) : Prop := {
  inv_plen : Z.of_nat (length parent) = V;
  inv_rlen : Z.of_nat (length rank) = V;
  inv_parent : forall i, 0 <= i < V -> 0 <= item parent i < V;
  inv_rank : forall i, 0 <= i < V -> 0 <= item rank i <= M;
  inv_up : forall i, 0 <= i < V -> item parent i <> i ->
                     item rank i < item rank (item parent i)
}.

Definition sumZ (f : Z -> Z) (l : list Z) : Z :=
  fold_right (fun i acc => f i + acc) 0 l.

(** Union by rank keeps the trees shallow: a root of rank [k] pays [2^k],
    and the roots together never pay more than [V]. *)
Definition potential (V : Z) (parent rank : list Z) : Z :=
  sumZ (fun i => if item parent i =? i then 2 ^ item rank i else 0) (range V).

(** The loop invariant of [kruskal]: the trees of [parent] are the
    components of the accepted edges, which form a forest. *)
Record loop_inv (V : Z) (parent rank : list Z) (result : list edge) : Prop := {
  li_uf : uf_inv V parent rank (Z.of_nat (length result));
  li_pot : potential V parent rank <= V;
  li_wf : wf_edges V result;
  li_forest : forest (rev result);
  li_conn : forall i j ri rj, 0 <= i < V -> 0 <= j < V ->
      root parent i ri -> root parent j rj -> (conn result i j <-> ri = rj)
}.

(** ** The scanning loop *)

(** The loop of [kruskal] seen from the edges still to be scanned: [rest]
    is [self.graph[i:]], and the subscript [self.graph[i]] is its head. *)
Fixpoint scan (depth : nat) (V : Z) (rest : list edge) (e : Z)
         (parent rank : list Z) (result : list edge) : outcome (list edge) :=
  if e <? V - 1 then
    match rest with
    | [] => Raises (IndexError EdgeList)
    | (u, v, w) :: rest' =>
        x <- find depth parent u ;;
        y <- find depth parent v ;;
        if negb (x =? y) then
          '(parent', rank') <- union depth parent rank x y ;;
          scan depth V rest' (e + 1) parent' rank' (result ++ [(u, v, w)])
        else
          scan depth V rest' e parent rank result
    end
  else Returns result.

(** What the loop establishes when started on [result] with [rest] left
    to scan, [all] being the whole sorted edge list. *)
Definition scan_post (V : Z) (all result rest : list edge)
           (o : outcome (list edge)) : Prop :=
  match o with
  | Returns K =>
      (exists K', K = result ++ K' /\ subseq K' rest) /\
      wf_edges V K /\ forest (rev K) /\ ascending K /\ incl K all /\
      V - 1 <= Z.of_nat (length K) /\
      (forall u v w, In (u, v, w) all -> conn (upto w K) u v)
  | Raises ex =>
      ex = IndexError EdgeList /\
      exists K, wf_edges V K /\ forest (rev K) /\ incl K all /\
                Z.of_nat (length K) < V - 1 /\
                (forall u v w, In (u, v, w) all -> conn K u v)
  | Unfinished => False
  end.

(** ** class Figure *)

Module FigureM.

Section Def.

(** The image is a [numpy.ndarray], of which [__init__] reads the shape
    only; the classes of the plots and photos are not in this file. *)
Variables ndarray Plot Photo : Type.
Variable shape : ndarray -> list Z.

Record Figure : Type := mkFigure {
  img : ndarray;
  width : Z;
  height : Z;
  center : Z * float;
  panels : option (list Panel);
  plots : option (list Plot);
  photos : option (list Photo)
}.

(** How [__init__] can fail: a subscript of [img.shape], the conversion
    of an int to a float, [int] on a float that stands for no number. *)
Inductive init_error : Type := ShapeIndexError | IntTooLarge | NotANumber.

Inductive init_outcome : Type :=
| Built (f : Figure)
| Fails (e : init_error).

(** [__init__]: [self.center = (int(self.width * 0.5), int(self.height) * 0.5)],
    the height being an int already. *)
Definition init (img : ndarray) (panels : option (list Panel))
           (plots : option (list Plot)) (photos : option (list Photo))
  : init_outcome :=
  match nth_error (shape img) 0 with
  | None => Fails ShapeIndexError
  | Some w =>
      match nth_error (shape img) 1 with
      | None => Fails ShapeIndexError
      | Some h =>
          match of_int w with
          | OverflowError => Fails IntTooLarge
          | FOk fw =>
              match to_int (mul fw half) with
              | None => Fails NotANumber
              | Some cx =>
                  match of_int h with
                  | OverflowError => Fails IntTooLarge
                  | FOk fh =>
                      Built {| img := img; width := w; height := h;
                               center := (cx, mul fh half);
                               panels := panels; plots := plots;
                               photos := photos |}
                  end
              end
          end
      end
  end.

End Def.

End FigureM.

(** ** Further vocabulary *)

(** Successive [addEdge] calls on a graph that already exists. *)
Definition add_edges (g : Graph) (es : list edge) : Graph :=
  fold_left (fun g '(u, v, w) => addEdge g u v w) es g.

(** A subscript a list of length [n] accepts. *)
Definition subscript_ok (n i : Z) : Prop := - n <= i < n.

(** The vertex a subscript denotes: a negative one counts from the end. *)
Definition alias (n u : Z) : Z := if u <? 0 then u + n else u.

Definition alias_edge (n : Z) (e : edge) : edge :=
  (alias n (fst (fst e)), alias n (snd (fst e)), snd e).

(** ** Facts on lists *)

Section ListFacts.

Lemma range_In (n x : Z) : In x (range n) <-> 0 <= x < n.
Proof.
  unfold range. rewrite in_map_iff. split.
  - intros [k [<- Hk]]. apply in_seq in Hk. lia.
  - intros H. exists (Z.to_nat x). split; [lia|]. apply in_seq. lia.
Qed.

Lemma range_NoDup (n : Z) : NoDup (range n).
Proof.
  unfold range. apply Finite.Injective_map_NoDup.
  - intros a b H. lia.
  - apply seq_NoDup.
Qed.

Lemma range_length (n : Z) : length (range n) = Z.to_nat n.
Proof. unfold range. now rewrite length_map, length_seq. Qed.

Lemma NoDup_map_on {A B : Type} (g : A -> B) (l : list A) :
  NoDup l ->
  (forall x y, In x l -> In y l -> g x = g y -> x = y) ->
  NoDup (map g l).
Proof.
  induction 1 as [|a l Ha Hl IH]; intros Hinj; simpl; constructor.
  - intros Hin. apply in_map_iff in Hin. destruct Hin as [y [Hy Hyl]].
    assert (y = a) by (apply Hinj; simpl; auto).
    subst. contradiction.
  - apply IH. intros x y Hx Hy. apply Hinj; simpl; auto.
Qed.

(** Dropping one element of a duplicate-free list. *)
Lemma filter_drop_one (p q : Z -> bool) (a : Z) (l : list Z) :
  NoDup l -> In a l -> p a = true ->
  (forall x, q x = p x && negb (x =? a)) ->
  S (length (filter q l)) = length (filter p l).
Proof.
  intros Hnd Hin Hpa Hq. induction Hnd as [|b l Hb Hl IH]; [destruct Hin|].
  simpl. rewrite (Hq b). destruct Hin as [-> | Hin].
  - rewrite Hpa, Z.eqb_refl. simpl. do 2 f_equal.
    apply filter_ext_in. intros x Hx. rewrite Hq.
    destruct (Z.eqb_spec x a); [subst; contradiction|].
    now rewrite andb_true_r.
  - destruct (Z.eqb_spec b a); [subst; contradiction|].
    rewrite andb_true_r. destruct (p b); simpl; rewrite IH; auto.
Qed.

Lemma NoDup_all_equal (a : Z) (l : list Z) :
  NoDup l -> (forall x, In x l -> x = a) -> (length l <= 1)%nat.
Proof.
  intros Hnd Hall. destruct l as [|x [|y l]]; simpl; try lia.
  exfalso. inversion Hnd as [|? ? Hx _]; subst. apply Hx.
  rewrite (Hall x), (Hall y); simpl; auto.
Qed.

Lemma sumZ_ext_in (f g : Z -> Z) (l : list Z) :
  (forall i, In i l -> f i = g i) -> sumZ f l = sumZ g l.
Proof.
  induction l as [|a l IH]; intros H; simpl; [reflexivity|].
  rewrite IH by (intros; apply H; simpl; auto).
  rewrite (H a) by (simpl; auto). reflexivity.
Qed.

Lemma sumZ_plus (f g : Z -> Z) (l : list Z) :
  sumZ (fun i => f i + g i) l = sumZ f l + sumZ g l.
Proof. induction l as [|a l IH]; simpl; lia. Qed.

Lemma sumZ_point (x a : Z) (l : list Z) :
  NoDup l -> In x l -> sumZ (fun i => if i =? x then a else 0) l = a.
Proof.
  induction 1 as [|b l Hb Hl IH]; intros Hin; [destruct Hin|]. simpl.
  destruct Hin as [-> | Hin].
  - rewrite Z.eqb_refl.
    rewrite (sumZ_ext_in _ (fun _ => 0) l).
    + clear. induction l; simpl; lia.
    + intros i Hi. destruct (Z.eqb_spec i x); [subst; contradiction | reflexivity].
  - destruct (Z.eqb_spec b x); [subst; contradiction|]. rewrite IH; auto.
Qed.

Lemma sumZ_term_le (f : Z -> Z) (x : Z) (l : list Z) :
  (forall i, In i l -> 0 <= f i) -> In x l -> f x <= sumZ f l.
Proof.
  induction l as [|a l IH]; intros Hpos Hin; [destruct Hin|]. simpl.
  assert (Hrest : 0 <= sumZ f l).
  { clear IH Hin. induction l as [|b l IHl]; simpl; [lia|].
    assert (0 <= f b) by (apply Hpos; simpl; auto).
    assert (0 <= sumZ f l).
    { apply IHl. intros i [->|Hi]; apply Hpos; simpl; auto. }
    lia. }
  pose proof (Hpos a (or_introl eq_refl)).
  destruct Hin as [-> | Hin]; [lia|].
  assert (f x <= sumZ f l) by (apply IH; auto; intros; apply Hpos; simpl; auto).
  lia.
Qed.

Lemma sumZ_one (l : list Z) : sumZ (fun _ => 1) l = Z.of_nat (length l).
Proof.
  induction l as [|a l IH]; [reflexivity|].
  unfold sumZ in *. cbn [fold_right length]. lia.
Qed.

(** A sum whose terms change at two places only. *)
Lemma sumZ_two_points (f f' : Z -> Z) (x y : Z) (l : list Z) :
  NoDup l -> In x l -> In y l ->
  (forall i, In i l -> i <> x -> i <> y -> f' i = f i) ->
  x <> y ->
  f' x + f' y <= f x + f y ->
  sumZ f' l <= sumZ f l.
Proof.
  intros Hnd Hx Hy Hsame Hne Hle.
  rewrite (sumZ_ext_in f'
    (fun i => f i + ((if i =? x then f' x - f x else 0) +
                     (if i =? y then f' y - f y else 0))) l).
  - rewrite !sumZ_plus, !sumZ_point by auto. lia.
  - intros i Hi.
    destruct (Z.eqb_spec i x) as [Ex|Ex], (Z.eqb_spec i y) as [Ey|Ey];
      try (subst; lia).
    rewrite (Hsame i Hi Ex Ey). lia.
Qed.

Lemma subseq_nil_l {A : Type} (l : list A) : subseq [] l.
Proof. induction l; auto using @subseq. Qed.

End ListFacts.

(** ** Components of an edge list *)

Section Components.

#[local] Hint Constructors conn : core.

Lemma conn_incl (es es' : list edge) x y :
  incl es es' -> conn es x y -> conn es' x y.
Proof. intros Hi H. induction H; eauto. Qed.

Lemma conn_nil x y : conn [] x y -> x = y.
Proof. induction 1; simpl in *; try tauto; congruence. Qed.

Lemma merge_same (a b : Z) (f : Z -> Z) x y :
  f x = f y -> merge a b f x = merge a b f y.
Proof. unfold merge. now intros ->. Qed.

Lemma merge_ends (a b : Z) (f : Z -> Z) : merge a b f a = merge a b f b.
Proof.
  unfold merge. rewrite Z.eqb_refl.
  destruct (Z.eqb_spec (f b) (f a)); reflexivity.
Qed.

(** Two vertices share a representative after the merge exactly when they
    did before, or when the merged edge bridges their classes. *)
Lemma merge_eq_iff (a b : Z) (f : Z -> Z) x y :
  merge a b f x = merge a b f y <->
  f x = f y \/ (f x = f a /\ f y = f b) \/ (f x = f b /\ f y = f a).
Proof.
  unfold merge.
  destruct (Z.eqb_spec (f x) (f a)), (Z.eqb_spec (f y) (f a)); lia.
Qed.

Lemma label_idem (es : list edge) x : label es (label es x) = label es x.
Proof.
  revert x. induction es as [|[[u v] w] es IH]; intros x; simpl; [reflexivity|].
  unfold merge. destruct (Z.eqb_spec (label es x) (label es u)) as [E|E].
  - rewrite IH. destruct (Z.eqb_spec (label es v) (label es u)); auto.
  - rewrite IH. destruct (Z.eqb_spec (label es x) (label es u)); [contradiction|auto].
Qed.

Lemma label_range (V : Z) (es : list edge) x :
  wf_edges V es -> 0 <= x < V -> 0 <= label es x < V.
Proof.
  revert x. induction es as [|[[u v] w] es IH]; intros x Hwf Hx; simpl; [assumption|].
  assert (Hwf' : wf_edges V es) by (intros a b c Hin; apply (Hwf a b c); now right).
  destruct (Hwf u v w) as [Hu Hv]; [now left|].
  unfold merge. destruct (label es x =? label es u); auto.
Qed.

Lemma conn_label (es : list edge) x : conn es x (label es x).
Proof.
  revert x. induction es as [|[[u v] w] es IH]; intros x; simpl; [auto|].
  assert (Hi : incl es ((u, v, w) :: es)) by (intros e He; now right).
  unfold merge. destruct (Z.eqb_spec (label es x) (label es u)) as [E|E].
  - apply conn_trans with u.
    + apply conn_incl with es; auto.
      apply conn_trans with (label es x); auto. rewrite E. auto.
    + apply conn_trans with v; [apply conn_edge with w; now left|].
      apply conn_incl with es; auto.
  - apply conn_incl with es; auto.
Qed.

Lemma label_edge (es : list edge) u v w :
  In (u, v, w) es -> label es u = label es v.
Proof.
  induction es as [|[[a b] c] es IH]; simpl; [tauto|].
  intros [E | Hin].
  - inversion E; subst. apply merge_ends.
  - apply merge_same. auto.
Qed.

(** The representatives decide connectivity. *)
Lemma label_conn (es : list edge) x y :
  label es x = label es y <-> conn es x y.
Proof.
  split.
  - intros E. apply conn_trans with (label es x); [apply conn_label|].
    rewrite E. apply conn_sym, conn_label.
  - induction 1; try congruence. eapply label_edge; eauto.
Qed.

Lemma conn_cons (es : list edge) u v w x y :
  conn ((u, v, w) :: es) x y <->
  conn es x y \/ (conn es x u /\ conn es y v) \/ (conn es x v /\ conn es y u).
Proof.
  rewrite <- !label_conn. simpl. apply merge_eq_iff.
Qed.

Lemma wf_edges_cons (V : Z) e (es : list edge) :
  wf_edges V (e :: es) -> wf_edges V es.
Proof. intros H a b c Hin. apply (H a b c). now right. Qed.

Lemma wf_edges_incl (V : Z) (es es' : list edge) :
  incl es es' -> wf_edges V es' -> wf_edges V es.
Proof. intros Hi H a b c Hin. apply (H a b c). auto. Qed.

Lemma reps_In (V : Z) (es : list edge) x :
  In x (reps V es) <-> 0 <= x < V /\ label es x = x.
Proof.
  unfold reps, is_rep. rewrite filter_In, range_In, Z.eqb_eq. tauto.
Qed.

Lemma reps_NoDup (V : Z) (es : list edge) : NoDup (reps V es).
Proof. apply NoDup_filter, range_NoDup. Qed.

Lemma ncomp_nil (V : Z) : ncomp V [] = Z.to_nat V.
Proof.
  unfold ncomp, reps. rewrite <- range_length. f_equal.
  induction (range V) as [|a l IH]; simpl; [reflexivity|].
  unfold is_rep at 1. simpl. rewrite Z.eqb_refl. now f_equal.
Qed.

(** An edge inside a component leaves the representatives alone. *)
Lemma ncomp_cons_same (V : Z) (es : list edge) u v w :
  label es u = label es v -> ncomp V ((u, v, w) :: es) = ncomp V es.
Proof.
  intros E. unfold ncomp, reps. f_equal. apply filter_ext. intros x.
  unfold is_rep. simpl. unfold merge.
  destruct (Z.eqb_spec (label es x) (label es u)); congruence.
Qed.

(** An edge between two components removes one representative. *)
Lemma ncomp_cons_diff (V : Z) (es : list edge) u v w :
  wf_edges V ((u, v, w) :: es) ->
  label es u <> label es v ->
  S (ncomp V ((u, v, w) :: es)) = ncomp V es.
Proof.
  intros Hwf Hne. unfold ncomp, reps.
  destruct (Hwf u v w) as [Hu Hv]; [now left|].
  apply wf_edges_cons in Hwf.
  apply filter_drop_one with (a := label es u).
  - apply range_NoDup.
  - apply range_In. now apply label_range.
  - unfold is_rep. rewrite label_idem. apply Z.eqb_refl.
  - intros x. unfold is_rep. simpl. unfold merge.
    destruct (Z.eqb_spec (label es x) (label es u)) as [E|E].
    + destruct (Z.eqb_spec (label es v) x) as [E1|E1];
        destruct (Z.eqb_spec (label es x) x) as [E2|E2];
        destruct (Z.eqb_spec x (label es u)) as [E3|E3]; simpl; try reflexivity;
        exfalso; try congruence.
      apply E2. rewrite <- E1. apply label_idem.
    + destruct (Z.eqb_spec (label es x) x) as [E2|E2];
        destruct (Z.eqb_spec x (label es u)) as [E3|E3]; simpl; try reflexivity.
      congruence.
Qed.

(** Every edge removes at most one component; a forest removes exactly
    one per edge. *)
Lemma ncomp_lower (V : Z) (es : list edge) :
  wf_edges V es -> (Z.to_nat V <= ncomp V es + length es)%nat.
Proof.
  induction es as [|[[u v] w] es IH]; intros Hwf.
  - rewrite ncomp_nil. simpl. lia.
  - specialize (IH (wf_edges_cons _ _ _ Hwf)). cbn [length].
    destruct (Z.eq_dec (label es u) (label es v)) as [E|E].
    + rewrite (ncomp_cons_same V es u v w E). lia.
    + pose proof (ncomp_cons_diff V es u v w Hwf E). lia.
Qed.

Lemma ncomp_forest (V : Z) (es : list edge) :
  wf_edges V es -> forest es -> (ncomp V es + length es = Z.to_nat V)%nat.
Proof.
  induction es as [|[[u v] w] es IH]; intros Hwf Hf.
  - rewrite ncomp_nil. simpl. lia.
  - destruct Hf as [Hn Hf]. specialize (IH (wf_edges_cons _ _ _ Hwf) Hf). cbn [length].
    assert (E : label es u <> label es v) by (now rewrite label_conn).
    pose proof (ncomp_cons_diff V es u v w Hwf E). lia.
Qed.

Lemma forest_of_count (V : Z) (es : list edge) :
  wf_edges V es -> (ncomp V es + length es = Z.to_nat V)%nat -> forest es.
Proof.
  induction es as [|[[u v] w] es IH]; intros Hwf Hc; simpl; [exact I|].
  pose proof (ncomp_lower V es (wf_edges_cons _ _ _ Hwf)) as Hl.
  cbn [length] in Hc.
  destruct (Z.eq_dec (label es u) (label es v)) as [E|E].
  - rewrite (ncomp_cons_same V es u v w E) in Hc. lia.
  - pose proof (ncomp_cons_diff V es u v w Hwf E). split.
    + now rewrite <- label_conn.
    + apply IH; [eapply wf_edges_cons; eauto | lia].
Qed.

Lemma forest_filter (p : edge -> bool) (es : list edge) :
  forest es -> forest (filter p es).
Proof.
  induction es as [|[[u v] w] es IH]; simpl; [auto|].
  intros [Hn Hf]. destruct (p (u, v, w)); simpl; auto.
  split; auto. intros Hc. apply Hn.
  apply conn_incl with (filter p es); auto. apply incl_filter.
Qed.

(** A coarser partition has no more components. *)
Lemma ncomp_mono (V : Z) (a f : list edge) :
  wf_edges V a ->
  (forall x y, conn a x y -> conn f x y) ->
  (ncomp V f <= ncomp V a)%nat.
Proof.
  intros Hwf Hsub. unfold ncomp.
  rewrite <- (length_map (label a) (reps V f)).
  apply NoDup_incl_length.
  - apply NoDup_map_on; [apply reps_NoDup|].
    intros x y Hx Hy E. apply reps_In in Hx, Hy.
    destruct Hx as [_ Hx], Hy as [_ Hy].
    apply label_conn, Hsub, label_conn in E. congruence.
  - intros z Hz. apply in_map_iff in Hz. destruct Hz as [x [<- Hx]].
    apply reps_In in Hx. apply reps_In. split.
    + apply label_range; tauto.
    + apply label_idem.
Qed.

(** A forest whose edges stay inside the components of [f] has at most
    as many edges as [f]. *)
Lemma forest_size_le (V : Z) (a f : list edge) :
  wf_edges V a -> wf_edges V f -> forest a ->
  (forall u v w, In (u, v, w) a -> conn f u v) ->
  (length a <= length f)%nat.
Proof.
  intros Hwa Hwf Hfa Hin.
  assert (Hsub : forall x y, conn a x y -> conn f x y).
  { intros x y H. induction H; eauto. }
  pose proof (ncomp_mono V a f Hwa Hsub).
  pose proof (ncomp_forest V a Hwa Hfa).
  pose proof (ncomp_lower V f Hwf). lia.
Qed.

Lemma connected_ncomp (V : Z) (es : list edge) :
  wf_edges V es -> connected V es -> ncomp V es = 1%nat.
Proof.
  intros Hwf [r [Hr Hall]].
  assert (Hin : In (label es r) (reps V es)).
  { apply reps_In. split; [now apply label_range | apply label_idem]. }
  assert (Hle : (length (reps V es) <= 1)%nat).
  { apply NoDup_all_equal with (label es r); [apply reps_NoDup|].
    intros x Hx. apply reps_In in Hx. destruct Hx as [Hx Ex].
    rewrite <- Ex. symmetry. apply label_conn. auto. }
  unfold ncomp. destruct (reps V es); simpl in *; [tauto | lia].
Qed.

Lemma ncomp_connected (V : Z) (es : list edge) :
  wf_edges V es -> ncomp V es = 1%nat -> connected V es.
Proof.
  intros Hwf Hc. unfold ncomp in Hc.
  destruct (reps V es) as [|r [|]] eqn:E; simpl in Hc; try discriminate.
  assert (Hr : In r (reps V es)) by (rewrite E; now left).
  apply reps_In in Hr. exists r. split; [tauto|].
  intros x Hx. apply label_conn.
  assert (Hlx : In (label es x) (reps V es)).
  { apply reps_In. split; [now apply label_range | apply label_idem]. }
  rewrite E in Hlx. destruct Hlx as [Hlx | []].
  rewrite <- Hlx. apply Hr.
Qed.

(** A forest with [V-1] edges spans, and a spanning forest has [V-1]
    edges. *)
Lemma forest_full_connected (V : Z) (es : list edge) :
  wf_edges V es -> forest es -> V - 1 <= Z.of_nat (length es) ->
  0 < V -> connected V es /\ Z.of_nat (length es) = V - 1.
Proof.
  intros Hwf Hf Hlen Hpos.
  pose proof (ncomp_forest V es Hwf Hf) as Hc.
  assert (Hin : In (label es 0) (reps V es)).
  { apply reps_In. split; [apply label_range; auto; lia | apply label_idem]. }
  assert (ncomp V es <> 0%nat).
  { unfold ncomp. destruct (reps V es); simpl in *; [tauto | lia]. }
  split; [apply ncomp_connected; auto|]; lia.
Qed.

Lemma spanning_tree_forest (V : Z) (es t : list edge) :
  wf_edges V es -> spanning_tree V es t -> forest t /\ wf_edges V t.
Proof.
  intros Hwf (Hi & Hlen & Hc).
  assert (Hwt : wf_edges V t) by (eapply wf_edges_incl; eauto).
  split; auto. apply forest_of_count with V; auto.
  rewrite (connected_ncomp V t Hwt Hc). lia.
Qed.

Lemma connected_disconnected (V : Z) (es : list edge) :
  connected V es -> disconnected V es -> False.
Proof.
  intros [r [Hr Hall]] (x & y & Hx & Hy & Hn).
  apply Hn. apply conn_trans with r; auto.
Qed.

End Components.

(** ** The stable sort *)

Section Sorting.

Lemma insert_perm (x : edge) (l : list edge) : Permutation (insert x l) (x :: l).
Proof.
  induction l as [|y l IH]; simpl; [reflexivity|].
  destruct (weight x <=? weight y); [reflexivity|].
  rewrite IH. apply perm_swap.
Qed.

Lemma sorted_perm (l : list edge) : Permutation (sorted l) l.
Proof.
  induction l as [|x l IH]; simpl; [reflexivity|].
  rewrite insert_perm. now constructor.
Qed.

Lemma sorted_In (l : list edge) e : In e (sorted l) <-> In e l.
Proof.
  split; apply Permutation_in; [|symmetry]; apply sorted_perm.
Qed.

Lemma insert_ascending (x : edge) (l : list edge) :
  ascending l -> ascending (insert x l).
Proof.
  unfold ascending. induction 1 as [|y l Hl IH Hy]; simpl.
  - repeat constructor.
  - destruct (Z.leb_spec (weight x) (weight y)) as [Hle|Hgt].
    + constructor; [now constructor|]. constructor; [exact Hle|].
      eapply Forall_impl; [|exact Hy]. unfold weight_le. intros; lia.
    + constructor; [exact IH|].
      eapply Permutation_Forall; [symmetry; apply insert_perm|].
      constructor; [unfold weight_le; lia | exact Hy].
Qed.

Lemma sorted_ascending (l : list edge) : ascending (sorted l).
Proof.
  induction l as [|x l IH]; simpl; [constructor|].
  now apply insert_ascending.
Qed.

(** The sort leaves an ascending list as it is. *)
Lemma sorted_fixed (l : list edge) : ascending l -> sorted l = l.
Proof.
  unfold ascending. induction 1 as [|x l Hl IH Hx]; simpl; [reflexivity|].
  rewrite IH. destruct l as [|y l]; simpl; [reflexivity|].
  inversion Hx as [|? ? Hxy _]; subst. unfold weight_le in Hxy.
  destruct (Z.leb_spec (weight x) (weight y)); [reflexivity | lia].
Qed.

Lemma sorted_idem (l : list edge) : sorted (sorted l) = sorted l.
Proof. apply sorted_fixed, sorted_ascending. Qed.

(** Edges of equal weight keep the order of insertion. *)
Lemma insert_stable (w : Z) (x : edge) (l : list edge) :
  filter (fun e => weight e =? w) (insert x l) =
  filter (fun e => weight e =? w) (x :: l).
Proof.
  induction l as [|y l IH]; [reflexivity|].
  cbn [insert]. destruct (Z.leb_spec (weight x) (weight y)) as [Hle|Hgt];
    [reflexivity|].
  cbn [filter] in *. rewrite IH.
  destruct (Z.eqb_spec (weight x) w), (Z.eqb_spec (weight y) w);
    try reflexivity. lia.
Qed.

Lemma sorted_stable (w : Z) (l : list edge) :
  filter (fun e => weight e =? w) (sorted l) =
  filter (fun e => weight e =? w) l.
Proof.
  induction l as [|x l IH]; [reflexivity|].
  cbn [sorted]. rewrite insert_stable. cbn [filter]. now rewrite IH.
Qed.

Lemma filter_weight_above (w : Z) (y : edge) (l : list edge) :
  Forall (weight_le y) l -> w < weight y ->
  filter (fun e => weight e =? w) l = [].
Proof.
  unfold weight_le. induction 1 as [|z l Hz Hl IH]; intros Hw; simpl; [reflexivity|].
  destruct (Z.eqb_spec (weight z) w); [lia | auto].
Qed.

(** An ascending list is determined by its classes of equal weight: two
    stable sorts of one list agree. *)
Lemma ascending_classes_eq (l1 l2 : list edge) :
  ascending l1 -> ascending l2 ->
  (forall w, filter (fun e => weight e =? w) l1 =
             filter (fun e => weight e =? w) l2) ->
  l1 = l2.
Proof.
  unfold ascending. intros H1. revert l2.
  induction H1 as [|x l1 Hl1 IH Hx]; intros l2 H2 Hcl.
  - destruct l2 as [|y l2]; [reflexivity|].
    specialize (Hcl (weight y)). simpl in Hcl. rewrite Z.eqb_refl in Hcl.
    discriminate Hcl.
  - destruct l2 as [|y l2].
    + specialize (Hcl (weight x)). simpl in Hcl. rewrite Z.eqb_refl in Hcl.
      discriminate Hcl.
    + inversion H2 as [|? ? Hl2 Hy]; subst.
      assert (Ew : weight x = weight y).
      { destruct (Z.lt_trichotomy (weight x) (weight y)) as [Hlt|[E|Hgt]]; auto.
        - specialize (Hcl (weight x)). simpl in Hcl. rewrite Z.eqb_refl in Hcl.
          destruct (Z.eqb_spec (weight y) (weight x)); [lia|].
          rewrite (filter_weight_above (weight x) y l2 Hy Hlt) in Hcl.
          discriminate Hcl.
        - specialize (Hcl (weight y)). simpl in Hcl. rewrite Z.eqb_refl in Hcl.
          destruct (Z.eqb_spec (weight x) (weight y)); [lia|].
          rewrite (filter_weight_above (weight y) x l1 Hx Hgt) in Hcl.
          discriminate Hcl. }
      assert (Exy : x = y).
      { specialize (Hcl (weight x)). simpl in Hcl.
        rewrite <- Ew, Z.eqb_refl in Hcl. now inversion Hcl. }
      subst y. f_equal. apply IH; [exact Hl2|].
      intros w. specialize (Hcl w). simpl in Hcl.
      destruct (weight x =? w); [now inversion Hcl | exact Hcl].
Qed.

End Sorting.

(** ** Comparing total weights *)

Section Weights.

Lemma total_weight_app (a b : list edge) :
  total_weight (a ++ b) = total_weight a + total_weight b.
Proof. induction a as [|x a IH]; simpl; lia. Qed.

Lemma total_weight_rev (a : list edge) : total_weight (rev a) = total_weight a.
Proof.
  induction a as [|x a IH]; simpl; [reflexivity|].
  rewrite total_weight_app. simpl. lia.
Qed.

Lemma upto_app (c : Z) (a b : list edge) : upto c (a ++ b) = upto c a ++ upto c b.
Proof. apply filter_app. Qed.

Lemma upto_rev (c : Z) (a : list edge) : upto c (rev a) = rev (upto c a).
Proof. apply filter_rev. Qed.

Lemma upto_length (c : Z) (a : list edge) : (length (upto c a) <= length a)%nat.
Proof. apply filter_length_le. Qed.

Lemma upto_all (c : Z) (a : list edge) :
  (forall e, In e a -> weight e <= c) -> upto c a = a.
Proof.
  induction a as [|x a IH]; intros H; simpl; [reflexivity|].
  destruct (Z.leb_spec (weight x) c) as [_|Hgt].
  - f_equal. apply IH. intros; apply H; now right.
  - specialize (H x (or_introl eq_refl)). lia.
Qed.

Lemma upto_incl (c c' : Z) (a : list edge) : c <= c' -> incl (upto c a) (upto c' a).
Proof.
  intros Hc e He. apply filter_In in He. apply filter_In.
  destruct He as [Hin He]. split; auto.
  apply Z.leb_le in He. apply Z.leb_le. lia.
Qed.

Lemma upto_miss (c : Z) (a : list edge) :
  (length (upto c a) < length a)%nat -> exists b, In b a /\ c < weight b.
Proof.
  induction a as [|x a IH]; simpl; [lia|].
  destruct (Z.leb_spec (weight x) c) as [Hle|Hgt]; simpl; intros H.
  - destruct IH as [b [Hb Hc]]; [lia|]. exists b. auto.
  - exists x. auto.
Qed.

Lemma StronglySorted_snoc {A : Type} (R : A -> A -> Prop) (l : list A) (x : A) :
  StronglySorted R l -> Forall (fun y => R y x) l -> StronglySorted R (l ++ [x]).
Proof.
  induction 1 as [|a l Hl IH Ha]; intros Hx; simpl.
  - repeat constructor.
  - inversion Hx; subst. constructor; [auto|].
    apply Forall_app. split; [exact Ha | now constructor].
Qed.

Lemma ascending_rev (a : list edge) : ascending a -> descending (rev a).
Proof.
  unfold ascending, descending. induction 1 as [|x a Ha IH Hx]; simpl.
  - constructor.
  - apply StronglySorted_snoc; [exact IH|].
    apply Forall_rev. exact Hx.
Qed.

(** If at every threshold [k] has at least as many edges below it as
    [t], and both have the same number of edges, then [k] weighs no
    more than [t]. *)
Lemma dominated_weight (k : list edge) :
  descending k ->
  forall t,
    length k = length t ->
    (forall c, (length (upto c t) <= length (upto c k))%nat) ->
    total_weight k <= total_weight t.
Proof.
  unfold descending. induction 1 as [|a k Hk IH Ha]; intros t Hlen Hdom.
  - destruct t; [simpl; lia | discriminate].
  - assert (Hb : exists b, In b t /\ weight a - 1 < weight b).
    { apply upto_miss. specialize (Hdom (weight a - 1)).
      cbn [upto filter] in Hdom.
      destruct (Z.leb_spec (weight a) (weight a - 1)); [lia|].
      pose proof (upto_length (weight a - 1) k). cbn [length] in Hlen.
      unfold upto in *. lia. }
    destruct Hb as [b [Hb Hab]].
    apply in_split in Hb. destruct Hb as [t1 [t2 ->]].
    assert (Hlen' : length k = length (t1 ++ t2)).
    { rewrite length_app in *. cbn [length] in Hlen. lia. }
    specialize (IH (t1 ++ t2) Hlen').
    rewrite total_weight_app. cbn [total_weight fold_right].
    fold (total_weight k). fold (total_weight t2).
    rewrite total_weight_app in IH.
    enough (total_weight k <= total_weight t1 + total_weight t2) by lia.
    apply IH. intros c.
    assert (Hsub : (length (upto c (t1 ++ t2)) <= length (upto c (t1 ++ b :: t2)))%nat).
    { rewrite !upto_app, !length_app. cbn [upto filter].
      destruct (weight b <=? c); cbn [length]; unfold upto; lia. }
    destruct (Z.leb_spec (weight a) c) as [Hle|Hgt].
    + rewrite (upto_all c k).
      * rewrite Hlen'. apply upto_length.
      * intros e He. rewrite Forall_forall in Ha. specialize (Ha e He).
        cbn beta in Ha. lia.
    + specialize (Hdom c). cbn [upto filter] in Hdom.
      destruct (Z.leb_spec (weight a) c); [lia|].
      unfold upto in *. lia.
Qed.

End Weights.

(** ** Facts on the disjoint-set forest *)

Section PyListFacts.

Lemma getitem_in {A : Type} (site : seq_site) (l : list A) (i : Z) (d : A) :
  0 <= i < Z.of_nat (length l) ->
  getitem site l i = Returns (nth (Z.to_nat i) l d).
Proof.
  intros Hi. unfold getitem, norm_index.
  destruct (Z.ltb_spec i 0); [lia|].
  destruct (Z.ltb_spec i 0); [lia|].
  destruct (Z.leb_spec (Z.of_nat (length l)) i); [lia|]. simpl.
  destruct (nth_error l (Z.to_nat i)) eqn:E.
  - now rewrite (nth_error_nth _ _ _ E).
  - apply nth_error_None in E. lia.
Qed.

Lemma getitem_end {A : Type} (site : seq_site) (l : list A) :
  getitem site l (Z.of_nat (length l)) = Raises (IndexError site).
Proof.
  unfold getitem, norm_index.
  destruct (Z.ltb_spec (Z.of_nat (length l)) 0); [lia|].
  destruct (Z.ltb_spec (Z.of_nat (length l)) 0); [lia|].
  destruct (Z.leb_spec (Z.of_nat (length l)) (Z.of_nat (length l))); [|lia].
  reflexivity.
Qed.

Lemma setitem_in {A : Type} (site : seq_site) (l : list A) (i : Z) (x : A) :
  0 <= i < Z.of_nat (length l) ->
  setitem site l i x = Returns (update l (Z.to_nat i) x).
Proof.
  intros Hi. unfold setitem, norm_index.
  destruct (Z.ltb_spec i 0); [lia|].
  destruct (Z.ltb_spec i 0); [lia|].
  destruct (Z.leb_spec (Z.of_nat (length l)) i); [lia|]. reflexivity.
Qed.

Lemma update_length {A : Type} (l : list A) (k : nat) (x : A) :
  length (update l k x) = length l.
Proof.
  revert k. induction l as [|h t IH]; intros [|k]; simpl; auto.
Qed.

Lemma nth_update_eq {A : Type} (l : list A) (k : nat) (x d : A) :
  (k < length l)%nat -> nth k (update l k x) d = x.
Proof.
  revert k. induction l as [|h t IH]; intros [|k]; simpl; intros H;
    try lia; auto. apply IH. lia.
Qed.

Lemma nth_update_neq {A : Type} (l : list A) (k j : nat) (x d : A) :
  k <> j -> nth j (update l k x) d = nth j l d.
Proof.
  revert k j. induction l as [|h t IH]; intros [|k] [|j]; simpl; intros H;
    try lia; auto.
Qed.

Lemma item_update_eq (l : list Z) (c x : Z) :
  0 <= c < Z.of_nat (length l) -> item (update l (Z.to_nat c) x) c = x.
Proof. intros H. unfold item. apply nth_update_eq. lia. Qed.

Lemma item_update_neq (l : list Z) (c i x : Z) :
  0 <= c -> 0 <= i -> i <> c -> item (update l (Z.to_nat c) x) i = item l i.
Proof. intros Hc Hi H. unfold item. apply nth_update_neq. lia. Qed.

Lemma item_range (n i : Z) : 0 <= i < n -> item (range n) i = i.
Proof.
  intros H. unfold item, range.
  change 0 with (Z.of_nat 0) at 1. rewrite map_nth, seq_nth; lia.
Qed.

Lemma item_zeros (l : list Z) (i : Z) : item (map (fun _ => 0) l) i = 0.
Proof.
  unfold item. generalize (Z.to_nat i) as k.
  induction l as [|h t IH]; intros [|k]; simpl; auto.
Qed.

Lemma make_sets_eq (n : Z) :
  make_sets n = (range n, map (fun _ => 0) (range n)).
Proof.
  unfold make_sets.
  assert (H : forall l p r,
    fold_left (fun pr node => (fst pr ++ [node], snd pr ++ [0])) l (p, r) =
    (p ++ l, r ++ map (fun _ : Z => 0) l)).
  { induction l as [|a l IH]; intros p r; simpl.
    - now rewrite !app_nil_r.
    - rewrite IH, <- !app_assoc. reflexivity. }
  apply H.
Qed.

Lemma skipn_nth {A : Type} (l : list A) (k : nat) (d : A) :
  (k < length l)%nat -> skipn k l = nth k l d :: skipn (S k) l.
Proof.
  revert k. induction l as [|h t IH]; intros [|k] H; simpl in *; try lia; auto.
  apply IH. lia.
Qed.

End PyListFacts.

Section DisjointSets.

Variable V : Z.

Lemma find_root_self (depth : nat) (parent : list Z) (x : Z) :
  (0 < depth)%nat -> 0 <= x < Z.of_nat (length parent) ->
  item parent x = x -> find depth parent x = Returns x.
Proof.
  intros Hd Hx Hr. destruct depth; [lia|]. simpl.
  rewrite (getitem_in _ _ _ 0 Hx). fold (item parent x). simpl.
  rewrite Hr, Z.eqb_refl. reflexivity.
Qed.

(** With a recursion budget above the rank gap, [find] returns the
    root. *)
Lemma find_spec (parent rank : list Z) (M : Z) (depth : nat) :
  uf_inv V parent rank M ->
  forall i, 0 <= i < V -> M - item rank i < Z.of_nat depth ->
  exists r, find depth parent i = Returns r /\ root parent i r /\
            0 <= r < V /\ item parent r = r.
Proof.
  intros Hinv. induction depth as [|d IH]; intros i Hi Hd.
  - pose proof (inv_rank _ _ _ _ Hinv i Hi). lia.
  - simpl. rewrite (getitem_in _ _ _ 0);
      [|rewrite (inv_plen _ _ _ _ Hinv); exact Hi].
    fold (item parent i). simpl.
    destruct (Z.eqb_spec (item parent i) i) as [E|E].
    + exists i. repeat split; try tauto. now constructor.
    + pose proof (inv_up _ _ _ _ Hinv i Hi E).
      destruct (IH (item parent i)) as (r & Hf & Hr & Hrange & Hfix).
      * now apply (inv_parent _ _ _ _ Hinv).
      * lia.
      * exists r. repeat split; try tauto. now apply root_step.
Qed.

Lemma root_exists (parent rank : list Z) (M : Z) :
  uf_inv V parent rank M ->
  forall i, 0 <= i < V -> exists r, root parent i r /\ 0 <= r < V /\ item parent r = r.
Proof.
  intros Hinv i Hi.
  destruct (find_spec parent rank M (S (Z.to_nat M)) Hinv i Hi)
    as (r & _ & H); [|eauto].
  pose proof (inv_rank _ _ _ _ Hinv i Hi). lia.
Qed.

Lemma root_det (parent : list Z) i r r' :
  root parent i r -> root parent i r' -> r = r'.
Proof.
  induction 1 as [i Hi | i r Hi Hr IH]; intros H'; inversion H'; subst;
    try contradiction; auto.
Qed.

(** Hanging the root [c] under the root [p]. *)
Lemma root_link (parent rank : list Z) (M c p : Z) :
  uf_inv V parent rank M ->
  0 <= c < V -> 0 <= p < V -> item parent c = c -> item parent p = p -> c <> p ->
  forall i r, root parent i r -> 0 <= i < V ->
    root (update parent (Z.to_nat c) p) i (if r =? c then p else r).
Proof.
  intros Hinv Hc Hp Hrc Hrp Hne.
  pose proof (inv_plen _ _ _ _ Hinv) as Hlen.
  induction 1 as [i Hi | i r Hi Hr IH]; intros Hrange.
  - destruct (Z.eqb_spec i c) as [->|E].
    + apply root_step; rewrite item_update_eq by lia; [lia|].
      apply root_self. rewrite item_update_neq by lia. exact Hrp.
    + apply root_self. rewrite item_update_neq by lia. exact Hi.
  - assert (i <> c) by congruence.
    apply root_step; rewrite item_update_neq by lia; [exact Hi|].
    apply IH. now apply (inv_parent _ _ _ _ Hinv).
Qed.

Lemma root_rank_le (parent rank : list Z) (M : Z) :
  uf_inv V parent rank M ->
  forall i r, root parent i r -> 0 <= i < V -> item rank i <= item rank r.
Proof.
  intros Hinv. induction 1 as [i Hi | i r Hi Hr IH]; intros Hrange; [lia|].
  pose proof (inv_up _ _ _ _ Hinv i Hrange Hi).
  pose proof (IH (inv_parent _ _ _ _ Hinv i Hrange)). lia.
Qed.

Lemma potential_term_nonneg (parent rank : list Z) (i : Z) :
  0 <= (if item parent i =? i then 2 ^ item rank i else 0).
Proof.
  destruct (item parent i =? i); [|lia]. apply Z.pow_nonneg. lia.
Qed.

(** The potential bounds every rank by [log2 V]. *)
Lemma uf_inv_tight (parent rank : list Z) (M : Z) :
  uf_inv V parent rank M -> potential V parent rank <= V ->
  uf_inv V parent rank (Z.log2 V).
Proof.
  intros Hinv Hpot. pose proof Hinv as [Hpl Hrl Hpar Hrk Hup].
  constructor; auto. intros i Hi. split; [apply (Hrk i Hi)|].
  destruct (root_exists parent rank M Hinv i Hi) as (r & Hr & Hrange & Hfix).
  pose proof (root_rank_le parent rank M Hinv i r Hr Hi) as Hle.
  assert (Hterm : 2 ^ item rank r <= V).
  { eapply Z.le_trans; [|exact Hpot]. unfold potential.
    pose proof (sumZ_term_le
      (fun i => if item parent i =? i then 2 ^ item rank i else 0) r (range V)) as H.
    cbv beta in H. rewrite Hfix, Z.eqb_refl in H. apply H.
    - intros j _. apply potential_term_nonneg.
    - now apply range_In. }
  pose proof (Hrk r Hrange) as [Hr0 _].
  apply Z.log2_le_mono in Hterm. rewrite Z.log2_pow2 in Hterm by lia. lia.
Qed.

(** Hanging [c] under [p] does not raise the potential when the new rank
    of [p] is paid for by the two old roots. *)
Lemma potential_link (parent rank rank' : list Z) (M c p : Z) :
  uf_inv V parent rank M ->
  0 <= c < V -> 0 <= p < V -> item parent c = c -> item parent p = p -> c <> p ->
  (forall i, 0 <= i < V -> i <> p -> item rank' i = item rank i) ->
  2 ^ item rank' p <= 2 ^ item rank c + 2 ^ item rank p ->
  potential V (update parent (Z.to_nat c) p) rank' <= potential V parent rank.
Proof.
  intros Hinv Hc Hp Hfc Hfp Hne Hsame Hpay.
  pose proof (inv_plen _ _ _ _ Hinv) as Hpl.
  unfold potential. apply sumZ_two_points with c p; auto.
  - apply range_NoDup.
  - now apply range_In.
  - now apply range_In.
  - intros i Hi Hic Hip. apply range_In in Hi. cbv beta.
    rewrite item_update_neq by lia. now rewrite (Hsame i Hi Hip).
  - cbv beta. rewrite item_update_eq by lia.
    rewrite item_update_neq by lia. rewrite Hfc, Hfp, !Z.eqb_refl.
    destruct (Z.eqb_spec p c); [congruence|]. lia.
Qed.

Lemma uf_inv_link (parent rank rank' : list Z) (M c p : Z) :
  uf_inv V parent rank M ->
  0 <= c < V -> 0 <= p < V -> item parent c = c -> item parent p = p -> c <> p ->
  length rank' = length rank ->
  (forall i, 0 <= i < V -> i <> p -> item rank' i = item rank i) ->
  item rank p <= item rank' p <= M + 1 ->
  item rank c < item rank' p ->
  uf_inv V (update parent (Z.to_nat c) p) rank' (M + 1).
Proof.
  intros Hinv Hc Hp Hrc Hrp Hne Hlen Hsame Hbig Hlt.
  pose proof (inv_plen _ _ _ _ Hinv) as Hpl.
  assert (Hrk : forall i, 0 <= i < V -> item rank i <= item rank' i <= M + 1).
  { intros i Hi. destruct (Z.eq_dec i p) as [->|E]; [exact Hbig|].
    rewrite (Hsame i Hi E). pose proof (inv_rank _ _ _ _ Hinv i Hi). lia. }
  constructor.
  - now rewrite update_length.
  - rewrite Hlen. apply (inv_rlen _ _ _ _ Hinv).
  - intros i Hi. destruct (Z.eq_dec i c) as [->|E].
    + rewrite item_update_eq by lia. exact Hp.
    + rewrite item_update_neq by lia. now apply (inv_parent _ _ _ _ Hinv).
  - intros i Hi. pose proof (inv_rank _ _ _ _ Hinv i Hi).
    pose proof (Hrk i Hi). lia.
  - intros i Hi. destruct (Z.eq_dec i c) as [->|E].
    + rewrite item_update_eq by lia. intros _.
      rewrite (Hsame c Hc Hne). exact Hlt.
    + rewrite item_update_neq by lia. intros Hnr.
      assert (i <> p) by congruence.
      rewrite (Hsame i Hi H).
      pose proof (inv_up _ _ _ _ Hinv i Hi Hnr).
      pose proof (Hrk (item parent i) (inv_parent _ _ _ _ Hinv i Hi)). lia.
Qed.

(** [union] on two distinct roots hangs one of them under the other. *)
Lemma union_spec (parent rank : list Z) (M : Z) (depth : nat) (x y : Z) :
  uf_inv V parent rank M ->
  0 <= x < V -> 0 <= y < V -> item parent x = x -> item parent y = y -> x <> y ->
  (0 < depth)%nat ->
  exists parent' rank' c p,
    union depth parent rank x y = Returns (parent', rank') /\
    ((c = x /\ p = y) \/ (c = y /\ p = x)) /\
    parent' = update parent (Z.to_nat c) p /\
    uf_inv V parent' rank' (M + 1) /\
    potential V parent' rank' <= potential V parent rank.
Proof.
  intros Hinv Hx Hy Hrx Hry Hne Hd.
  pose proof (inv_plen _ _ _ _ Hinv) as Hpl.
  pose proof (inv_rlen _ _ _ _ Hinv) as Hrl.
  pose proof (inv_rank _ _ _ _ Hinv x Hx) as Hbx.
  pose proof (inv_rank _ _ _ _ Hinv y Hy) as Hby.
  unfold union.
  rewrite (find_root_self depth parent x), (find_root_self depth parent y)
    by (auto; lia). cbn [bind].
  rewrite (getitem_in _ rank x 0), (getitem_in _ rank y 0) by lia.
  fold (item rank x). fold (item rank y). cbn [bind].
  destruct (Z.ltb_spec (item rank x) (item rank y)) as [Hlt|Hge].
  - rewrite setitem_in by lia. cbn [bind].
    exists (update parent (Z.to_nat x) y), rank, x, y.
    split; [reflexivity|]. split; [tauto|]. split; [reflexivity|]. split.
    + apply uf_inv_link with (rank := rank); auto; lia.
    + apply potential_link with M; auto.
      assert (0 <= 2 ^ item rank x) by (apply Z.pow_nonneg; lia). lia.
  - destruct (Z.gtb_spec (item rank x) (item rank y)) as [Hgt|Hle].
    + rewrite setitem_in by lia. cbn [bind].
      exists (update parent (Z.to_nat y) x), rank, y, x.
      split; [reflexivity|]. split; [tauto|]. split; [reflexivity|]. split.
      * apply uf_inv_link with (rank := rank); auto; lia.
      * apply potential_link with M; auto.
        assert (0 <= 2 ^ item rank y) by (apply Z.pow_nonneg; lia). lia.
    + rewrite !setitem_in by lia. cbn [bind].
      exists (update parent (Z.to_nat y) x),
             (update rank (Z.to_nat x) (item rank x + 1)), y, x.
      split; [reflexivity|]. split; [tauto|]. split; [reflexivity|].
      assert (Hsame : forall i, 0 <= i < V -> i <> x ->
                item (update rank (Z.to_nat x) (item rank x + 1)) i = item rank i).
      { intros i Hi Hix. apply item_update_neq; lia. }
      split.
      * apply uf_inv_link with (rank := rank); auto.
        -- apply update_length.
        -- rewrite item_update_eq by lia. lia.
        -- rewrite item_update_eq by lia. lia.
      * apply potential_link with M; auto.
        rewrite item_update_eq by lia.
        rewrite Z.pow_add_r by lia. change (2 ^ 1) with 2.
        replace (item rank y) with (item rank x) by lia. lia.
Qed.

End DisjointSets.

(** ** Facts on the scanning loop *)

Section Loop.

Variable V : Z.
Variable depth : nat.
Hypothesis depth_enough : Z.log2 V < Z.of_nat depth.

Lemma kruskal_loop_scan (graph : list edge) (steps : nat) :
  forall i e parent rank result,
    0 <= i <= Z.of_nat (length graph) ->
    Z.of_nat (length graph) - i < Z.of_nat steps ->
    kruskal_loop steps depth V graph i e parent rank result =
    scan depth V (skipn (Z.to_nat i) graph) e parent rank result.
Proof.
  induction steps as [|k IH]; intros i e parent rank result Hi Hs; [lia|].
  cbn [kruskal_loop].
  destruct (Z.eq_dec i (Z.of_nat (length graph))) as [->|Hne].
  - rewrite getitem_end, Nat2Z.id, skipn_all. cbn [bind].
    destruct (e <? V - 1) eqn:E; simpl; rewrite E; reflexivity.
  - rewrite (getitem_in _ _ _ (0, 0, 0)) by lia.
    rewrite (skipn_nth graph (Z.to_nat i) (0, 0, 0)) by lia.
    destruct (nth (Z.to_nat i) graph (0, 0, 0)) as [[u v] w]. cbn [bind scan].
    replace (S (Z.to_nat i)) with (Z.to_nat (i + 1)) by lia.
    destruct (e <? V - 1); [|reflexivity].
    destruct (find depth parent u) as [x| |]; cbn [bind]; try reflexivity.
    destruct (find depth parent v) as [y| |]; cbn [bind]; try reflexivity.
    destruct (negb (x =? y)).
    + destruct (union depth parent rank x y) as [[p r]| |]; cbn [bind];
        try reflexivity.
      apply IH; lia.
    + apply IH; lia.
Qed.

(** One accepted edge keeps the loop invariant. *)
Lemma loop_inv_accept (parent rank parent' rank' : list Z)
      (result : list edge) (u v w x y c p : Z) :
  loop_inv V parent rank result ->
  0 <= u < V -> 0 <= v < V ->
  root parent u x -> root parent v y ->
  0 <= x < V -> 0 <= y < V -> item parent x = x -> item parent y = y ->
  x <> y ->
  (c = x /\ p = y) \/ (c = y /\ p = x) ->
  parent' = update parent (Z.to_nat c) p ->
  uf_inv V parent' rank' (Z.of_nat (length result) + 1) ->
  potential V parent' rank' <= potential V parent rank ->
  loop_inv V parent' rank' (result ++ [(u, v, w)]).
Proof.
  intros Hinv Hu Hv Hru Hrv Hx Hy Hfx Hfy Hne Hcp -> Huf Hpot'.
  destruct Hinv as [Huf0 Hpot Hwf Hfor Hconn].
  assert (Hc : 0 <= c < V) by (destruct Hcp as [[-> _]|[-> _]]; auto).
  assert (Hp : 0 <= p < V) by (destruct Hcp as [[_ ->]|[_ ->]]; auto).
  assert (Hfc : item parent c = c) by (destruct Hcp as [[-> _]|[-> _]]; auto).
  assert (Hfp : item parent p = p) by (destruct Hcp as [[_ ->]|[_ ->]]; auto).
  assert (Hcne : c <> p) by (destruct Hcp as [[-> ->]|[-> ->]]; auto).
  constructor.
  - rewrite length_app. cbn [length].
    replace (Z.of_nat (length result + 1)) with (Z.of_nat (length result) + 1)
      by lia.
    exact Huf.
  - lia.
  - intros a b k Hin. apply in_app_iff in Hin. destruct Hin as [Hin|[E|[]]].
    + eapply Hwf; eauto.
    + inversion E; subst. auto.
  - rewrite rev_app_distr. cbn [rev app forest]. split; [|exact Hfor].
    intros Hcn. apply Hne. apply (Hconn u v x y Hu Hv Hru Hrv).
    apply conn_incl with (rev result); [|exact Hcn].
    intros z Hz. now apply in_rev.
  - intros i j ri' rj' Hi Hj Hri' Hrj'.
    destruct (root_exists V parent rank _ Huf0 i Hi) as (ri & Hri & _).
    destruct (root_exists V parent rank _ Huf0 j Hj) as (rj & Hrj & _).
    pose proof (root_link V parent rank _ c p Huf0 Hc Hp Hfc Hfp Hcne i ri Hri Hi)
      as Li.
    pose proof (root_link V parent rank _ c p Huf0 Hc Hp Hfc Hfp Hcne j rj Hrj Hj)
      as Lj.
    rewrite (root_det _ _ _ _ Hri' Li), (root_det _ _ _ _ Hrj' Lj).
    assert (Heq : conn (result ++ [(u, v, w)]) i j <-> conn ((u, v, w) :: result) i j).
    { split; apply conn_incl; intros z Hz; rewrite in_app_iff in *;
        simpl in *; tauto. }
    rewrite Heq, conn_cons.
    rewrite (Hconn i j ri rj Hi Hj Hri Hrj).
    rewrite (Hconn i u ri x Hi Hu Hri Hru), (Hconn j v rj y Hj Hv Hrj Hrv).
    rewrite (Hconn i v ri y Hi Hv Hri Hrv), (Hconn j u rj x Hj Hu Hrj Hru).
    destruct (Z.eqb_spec ri c), (Z.eqb_spec rj c); lia.
Qed.

Lemma scan_post_skip (all result rest : list edge) (e0 : edge) o :
  scan_post V all result rest o -> scan_post V all result (e0 :: rest) o.
Proof.
  destruct o as [K| |]; simpl; auto.
  intros [[K' [-> Hs]] H]. split; [|exact H].
  exists K'. split; [reflexivity|]. now constructor.
Qed.

Lemma scan_post_take (all result rest : list edge) (e0 : edge) o :
  scan_post V all (result ++ [e0]) rest o -> scan_post V all result (e0 :: rest) o.
Proof.
  destruct o as [K| |]; simpl; auto.
  intros [[K' [-> Hs]] H]. split; [|exact H].
  exists (e0 :: K'). rewrite <- app_assoc. split; [reflexivity|].
  now constructor.
Qed.

(** The loop, from any state that satisfies the invariant. *)
Lemma scan_spec (all : list edge) :
  wf_edges V all ->
  forall rest done parent rank result,
    all = done ++ rest ->
    ascending rest ->
    loop_inv V parent rank result ->
    incl result done ->
    ascending result ->
    (forall a b, In a result -> In b rest -> weight a <= weight b) ->
    (forall u v w, In (u, v, w) done -> conn (upto w result) u v) ->
    scan_post V all result rest
      (scan depth V rest (Z.of_nat (length result)) parent rank result).
Proof.
  intros Hwf.
  induction rest as [|[[u v] w] rest IH];
    intros done parent rank result Hall Hasc Hinv Hincl Hres Hbound Hth.
  - (* every edge has been scanned *)
    rewrite app_nil_r in Hall. subst done. cbn [scan].
    destruct Hinv as [Huf Hpot Hwr Hfor Hconn].
    destruct (Z.ltb_spec (Z.of_nat (length result)) (V - 1)) as [Hlt|Hge].
    + simpl. split; [reflexivity|]. exists result.
      split; [exact Hwr|]. split; [exact Hfor|]. split; [exact Hincl|].
      split; [exact Hlt|].
      intros a b c Hin. apply conn_incl with (upto c result); auto.
      apply incl_filter.
    + simpl. split; [exists []; rewrite app_nil_r; split; [reflexivity|constructor]|].
      split; [exact Hwr|]. split; [exact Hfor|]. split; [exact Hres|].
      split; [exact Hincl|]. split; [lia|]. exact Hth.
  - cbn [scan].
    assert (Hin0 : In (u, v, w) all) by (subst all; apply in_app_iff; right; now left).
    destruct (Hwf u v w Hin0) as [Hu Hv].
    destruct (Z.ltb_spec (Z.of_nat (length result)) (V - 1)) as [Hlt|Hge].
    + (* one more iteration *)
      pose proof (li_uf _ _ _ _ Hinv) as Huf.
      pose proof (uf_inv_tight V parent rank _ Huf (li_pot _ _ _ _ Hinv)) as Hut.
      destruct (find_spec V parent rank _ depth Hut u Hu) as (x & Fx & Rx & Hx & Hfx).
      { pose proof (inv_rank _ _ _ _ Hut u Hu). lia. }
      destruct (find_spec V parent rank _ depth Hut v Hv) as (y & Fy & Ry & Hy & Hfy).
      { pose proof (inv_rank _ _ _ _ Hut v Hv). lia. }
      rewrite Fx, Fy. cbn [bind].
      assert (Hall' : all = (done ++ [(u, v, w)]) ++ rest).
      { rewrite <- app_assoc. exact Hall. }
      assert (Hasc' : ascending rest) by (inversion Hasc; auto).
      assert (Hw : forall a, In a result -> weight a <= w).
      { intros a Ha. apply (Hbound a (u, v, w) Ha). now left. }
      destruct (Z.eqb_spec x y) as [Exy|Nxy]; cbn [negb].
      * (* the edge closes a cycle *)
        apply scan_post_skip. apply (IH (done ++ [(u, v, w)])); auto.
        -- intros a Ha. apply in_app_iff. left. auto.
        -- intros a b Ha Hb. apply Hbound; auto. now right.
        -- intros a b c Hin. apply in_app_iff in Hin.
           destruct Hin as [Hin|[E|[]]]; [now apply Hth|].
           inversion E; subst a b c.
           rewrite (upto_all w result Hw).
           now apply (li_conn _ _ _ _ Hinv u v x y Hu Hv Rx Ry).
      * (* the edge is accepted *)
        destruct (union_spec V parent rank _ depth x y Huf Hx Hy Hfx Hfy Nxy)
          as (parent' & rank' & c & p & Un & Hcp & Hpar & Huf' & Hpot');
          [pose proof (Z.log2_nonneg V); lia|].
        rewrite Un. cbn [bind].
        apply scan_post_take.
        replace (Z.of_nat (length result) + 1)
          with (Z.of_nat (length (result ++ [(u, v, w)])))
          by (rewrite length_app; cbn [length]; lia).
        apply (IH (done ++ [(u, v, w)])); auto.
        -- eapply loop_inv_accept; eauto.
        -- intros a Ha. apply in_app_iff in Ha. apply in_app_iff.
           destruct Ha as [Ha|Ha]; auto.
        -- apply StronglySorted_snoc; [exact Hres|].
           apply Forall_forall. intros a Ha. unfold weight_le.
           specialize (Hw a Ha). simpl. exact Hw.
        -- intros a b Ha Hb. apply in_app_iff in Ha.
           destruct Ha as [Ha|[<-|[]]].
           ++ apply Hbound; auto. now right.
           ++ inversion Hasc as [|? ? _ Hf]; subst.
              rewrite Forall_forall in Hf. apply (Hf b Hb).
        -- intros a b k Hin. apply in_app_iff in Hin.
           destruct Hin as [Hin|[E|[]]].
           ++ apply conn_incl with (upto k result); [|now apply Hth].
              rewrite upto_app. apply incl_appl, incl_refl.
           ++ inversion E; subst a b k. apply conn_edge with w.
              rewrite upto_app. apply in_app_iff. right. simpl.
              unfold weight. simpl. rewrite Z.leb_refl. now left.
    + (* [V - 1] edges accepted: the loop ends *)
      simpl. destruct Hinv as [Huf Hpot Hwr Hfor Hconn].
      split; [exists []; rewrite app_nil_r; split;
              [reflexivity | apply subseq_nil_l]|].
      assert (HinclA : incl result all).
      { subst all. intros a Ha. apply in_app_iff. left. auto. }
      split; [exact Hwr|]. split; [exact Hfor|]. split; [exact Hres|].
      split; [exact HinclA|]. split; [lia|].
      intros a b c Hin.
      destruct (Hwf a b c Hin) as [Ha Hb].
      assert (Hcn : connected V (rev result)).
      { apply forest_full_connected; auto; try lia.
        - eapply wf_edges_incl; [|exact Hwr]. intros z Hz. now apply in_rev.
        - rewrite length_rev. lia. }
      subst all. apply in_app_iff in Hin. destruct Hin as [Hin|Hin].
      * now apply Hth.
      * rewrite (upto_all c result).
        -- destruct Hcn as [r [Hr Hallr]].
           apply conn_incl with (rev result);
             [intros z Hz; now apply in_rev|].
           apply conn_trans with r; [apply conn_sym|]; auto.
        -- intros a0 Ha0. apply (Hbound a0 (a, b, c) Ha0 Hin).
Qed.

End Loop.

(** ** [kruskal] as a whole *)

Section Kruskal.

Lemma build_fields (vertices : Z) (es : list edge) :
  V (build vertices es) = vertices /\ graph (build vertices es) = es.
Proof.
  unfold build.
  assert (H : forall l g,
    V (fold_left (fun g '(u, v, w) => addEdge g u v w) l g) = V g /\
    graph (fold_left (fun g '(u, v, w) => addEdge g u v w) l g) = graph g ++ l).
  { induction l as [|[[u v] w] l IH]; intros g; simpl.
    - now rewrite app_nil_r.
    - destruct (IH (addEdge g u v w)) as [-> ->]. simpl.
      now rewrite <- app_assoc. }
  destruct (H es (init vertices)) as [-> ->]. auto.
Qed.

(** The call is the scan of the sorted edge list from the singleton
    sets. *)
Lemma kruskal_scan (depth : nat) (g : Graph) :
  fst (kruskal depth g) =
  scan depth (V g) (sorted (graph g)) 0
       (range (V g)) (map (fun _ => 0) (range (V g))) [].
Proof.
  unfold kruskal. rewrite make_sets_eq. cbn [fst].
  rewrite kruskal_loop_scan by lia. reflexivity.
Qed.

Lemma kruskal_state (depth : nat) (g : Graph) :
  snd (kruskal depth g) = {| V := V g; graph := sorted (graph g) |}.
Proof. unfold kruskal. now destruct (make_sets (V g)). Qed.

Lemma loop_inv_init (n : Z) :
  0 <= n -> loop_inv n (range n) (map (fun _ => 0) (range n)) [].
Proof.
  intros Hn. constructor.
  - constructor.
    + rewrite range_length. lia.
    + rewrite length_map, range_length. lia.
    + intros i Hi. now rewrite item_range.
    + intros i Hi. rewrite item_zeros. simpl. lia.
    + intros i Hi. now rewrite item_range.
  - unfold potential.
    rewrite (sumZ_ext_in _ (fun _ => 1) (range n)).
    + rewrite sumZ_one, range_length. lia.
    + intros i Hi. apply range_In in Hi.
      now rewrite item_range, Z.eqb_refl, item_zeros.
  - intros u v w [].
  - exact I.
  - intros i j ri rj Hi Hj Hri Hrj.
    assert (Ei : ri = i).
    { eapply root_det; [exact Hri|]. apply root_self. now apply item_range. }
    assert (Ej : rj = j).
    { eapply root_det; [exact Hrj|]. apply root_self. now apply item_range. }
    subst. split; [apply conn_nil | intros ->; constructor].
Qed.

Lemma kruskal_post (depth : nat) (n : Z) (es : list edge) :
  0 <= n -> wf_edges n es -> Z.log2 n < Z.of_nat depth ->
  scan_post n (sorted es) [] (sorted es) (fst (kruskal depth (build n es))).
Proof.
  intros Hn Hwf Hd. rewrite kruskal_scan.
  destruct (build_fields n es) as [-> ->].
  apply (scan_spec n depth Hd (sorted es)) with (done := []) (result := []).
  - intros u v w Hin. apply (Hwf u v w). now apply sorted_In.
  - reflexivity.
  - apply sorted_ascending.
  - now apply loop_inv_init.
  - apply incl_refl.
  - constructor.
  - intros a b [].
  - intros u v w [].
Qed.

Lemma connected_incl (n : Z) (es es' : list edge) :
  (forall u v w, In (u, v, w) es -> conn es' u v) ->
  connected n es -> connected n es'.
Proof.
  intros Hsub [r [Hr Hall]]. exists r. split; [exact Hr|].
  assert (Hall' : forall a b, conn es a b -> conn es' a b).
  { intros a b H. induction H; eauto using conn. }
  intros x Hx. apply Hall'. now apply Hall.
Qed.

Lemma wf_edges_rev (n : Z) (es : list edge) : wf_edges n es -> wf_edges n (rev es).
Proof. apply wf_edges_incl. intros z Hz. now apply in_rev. Qed.

(** The accepted edges weigh no more than any spanning tree. *)
Lemma kruskal_optimal (n : Z) (es K T : list edge) :
  wf_edges n es -> wf_edges n K -> forest (rev K) -> ascending K ->
  length K = length T ->
  (forall u v w, In (u, v, w) es -> conn (upto w K) u v) ->
  spanning_tree n es T ->
  total_weight K <= total_weight T.
Proof.
  intros Hwf HwK HfK HaK Hlen Hth HT.
  destruct (spanning_tree_forest n es T Hwf HT) as [HfT HwT].
  destruct HT as (HiT & _ & _).
  rewrite <- (total_weight_rev K).
  apply dominated_weight.
  - now apply ascending_rev.
  - now rewrite length_rev.
  - intros c. apply forest_size_le with n.
    + eapply wf_edges_incl; [apply incl_filter | exact HwT].
    + eapply wf_edges_incl; [apply incl_filter | now apply wf_edges_rev].
    + now apply forest_filter.
    + intros u v w Hin. apply filter_In in Hin. destruct Hin as [Hin Hw].
      apply Z.leb_le in Hw. unfold weight in Hw. simpl in Hw.
      apply conn_incl with (upto w K); [|apply Hth; auto].
      intros z Hz. rewrite upto_rev. apply in_rev. rewrite rev_involutive.
      revert Hz. now apply upto_incl.
Qed.

End Kruskal.

(** * The properties *)

(** C1.  On a connected graph with vertices [{0 .. V-1}] built by
    [addEdge] calls, [kruskal] returns a list [K] of exactly [V-1] edges,
    taken in scanning order from the sorted edge list and so of
    non-decreasing weight; [K] is a spanning tree of the graph and no
    spanning tree weighs less: its weight is the minimum spanning tree
    weight.  The recursion of [find] needs more than [log2 V] frames. *)
Theorem kruskal_minimum_spanning_tree (depth : nat) (n : Z) (es : list edge) :
  wf_edges n es -> connected n es -> Z.log2 n < Z.of_nat depth ->
  exists K,
    fst (kruskal depth (build n es)) = Returns K /\
    Z.of_nat (length K) = n - 1 /\
    subseq K (sorted es) /\
    ascending K /\
    spanning_tree n es K /\
    forall T, spanning_tree n es T -> total_weight K <= total_weight T.
Proof.
  intros Hwf Hcon Hd.
  assert (Hn : 0 < n) by (destruct Hcon as [r [Hr _]]; lia).
  assert (Hn0 : 0 <= n) by lia.
  pose proof (kruskal_post depth n es Hn0 Hwf Hd) as Hpost.
  destruct (fst (kruskal depth (build n es))) as [K|ex|]; simpl in Hpost.
  - destruct Hpost as ([K' [HK Hsub]] & HwK & HfK & HaK & HiK & Hlen & Hth).
    simpl in HK. subst K'.
    destruct (forest_full_connected n (rev K)) as [HcK HlK]; auto.
    { now apply wf_edges_rev. }
    { rewrite length_rev. exact Hlen. }
    rewrite length_rev in HlK.
    assert (HiK' : incl K es).
    { intros z Hz. apply sorted_In. auto. }
    assert (Hth' : forall u v w, In (u, v, w) es -> conn (upto w K) u v).
    { intros u v w Hin. apply Hth. now apply sorted_In. }
    exists K. split; [reflexivity|]. split; [exact HlK|].
    split; [exact Hsub|]. split; [exact HaK|]. split.
    + split; [exact HiK'|]. split; [exact HlK|].
      eapply connected_incl; [|exact HcK].
      intros u v w Hin. apply conn_edge with w. now apply in_rev.
    + intros T HT. apply kruskal_optimal with n es; auto.
      destruct HT as (_ & HlT & _). lia.
  - exfalso. destruct Hpost as [_ (K & HwK & HfK & HiK & Hlen & Hall)].
    assert (HcK : connected n (rev K)).
    { eapply connected_incl; [|exact Hcon].
      intros u v w Hin. apply conn_incl with K; [intros z Hz; now rewrite <- in_rev|].
      apply (Hall u v w). now apply sorted_In. }
    pose proof (connected_ncomp n (rev K) (wf_edges_rev _ _ HwK) HcK) as Hc.
    pose proof (ncomp_forest n (rev K) (wf_edges_rev _ _ HwK) HfK) as Hf.
    rewrite length_rev in Hf. lia.
  - destruct Hpost.
Qed.

(** C2.  On a disconnected graph the loop of [kruskal] never accepts
    [V-1] edges: it scans the whole sorted edge list and then subscripts
    it once more, so the call ends in the [IndexError] of the edge list;
    it neither returns nor raises anything else ([find] being allowed more
    than [log2 V] frames). *)
Theorem kruskal_disconnected_index_error (depth : nat) (n : Z) (es : list edge) :
  wf_edges n es -> disconnected n es -> Z.log2 n < Z.of_nat depth ->
  fst (kruskal depth (build n es)) = Raises (IndexError EdgeList).
Proof.
  intros Hwf Hdis Hd.
  assert (Hn : 0 < n) by (destruct Hdis as (x & _ & Hx & _); lia).
  assert (Hn0 : 0 <= n) by lia.
  pose proof (kruskal_post depth n es Hn0 Hwf Hd) as Hpost.
  destruct (fst (kruskal depth (build n es))) as [K|ex|]; simpl in Hpost.
  - exfalso. destruct Hpost as (_ & HwK & HfK & _ & HiK & Hlen & _).
    destruct (forest_full_connected n (rev K)) as [HcK _]; auto.
    { now apply wf_edges_rev. }
    { rewrite length_rev. exact Hlen. }
    apply (connected_disconnected n es); [|exact Hdis].
    eapply connected_incl; [|exact HcK].
    intros u v w Hin. apply conn_edge with w.
    apply sorted_In, HiK. now apply in_rev.
  - destruct Hpost as [-> _]. reflexivity.
  - destruct Hpost.
Qed.

Lemma kruskal_minimum_spanning_tree_witness :
  exists K,
    fst (kruskal 4 (build 4 [(0, 1, 1); (1, 2, 2); (0, 2, 3); (2, 3, 1)])) = Returns K /\
    Z.of_nat (length K) = 4 - 1 /\
    subseq K (sorted [(0, 1, 1); (1, 2, 2); (0, 2, 3); (2, 3, 1)]) /\
    ascending K /\
    spanning_tree 4 [(0, 1, 1); (1, 2, 2); (0, 2, 3); (2, 3, 1)] K /\
    forall T, spanning_tree 4 [(0, 1, 1); (1, 2, 2); (0, 2, 3); (2, 3, 1)] T ->
              total_weight K <= total_weight T.
Proof.
  apply (kruskal_minimum_spanning_tree 4 4).
  - intros u v w Hin. simpl in Hin.
    repeat (destruct Hin as [Hin|Hin]; [inversion Hin; lia|]). destruct Hin.
  - exists 0. split; [lia|]. intros x Hx.
    assert (E : x = 0 \/ x = 1 \/ x = 2 \/ x = 3) by lia.
    destruct E as [-> | [-> | [-> | ->]]].
    + apply conn_refl.
    + apply conn_edge with 1. simpl. auto.
    + apply conn_edge with 3. simpl. auto.
    + apply conn_trans with 2.
      * apply conn_edge with 3. simpl. auto.
      * apply conn_edge with 1. simpl. auto.
  - simpl. lia.
Defined.

Lemma kruskal_disconnected_index_error_witness :
  fst (kruskal 4 (build 4 [(0, 1, 1); (2, 3, 1)])) = Raises (IndexError EdgeList).
Proof.
  apply (kruskal_disconnected_index_error 4 4).
  - intros u v w Hin. simpl in Hin.
    repeat (destruct Hin as [Hin|Hin]; [inversion Hin; lia|]). destruct Hin.
  - exists 0, 2. split; [lia|]. split; [lia|].
    intros H. apply label_conn in H. vm_compute in H. discriminate H.
  - simpl. lia.
Defined.

(** C3.  [kruskal] scans the edges sorted by ascending weight, edges of
    equal weight in the order of insertion, and this fixes the sorted list
    whatever stable sort computes it; on the four-vertex graph with
    edges added as (0,1,1), (1,2,2), (0,2,3), (2,3,1) it returns
    [(0,1,1); (2,3,1); (1,2,2)], of total weight 4. *)
Theorem kruskal_stable_sort_example (depth : nat) (Hdepth : (2 <= depth)%nat) :
  (forall g, graph (snd (kruskal depth g)) = sorted (graph g)) /\
  (forall l, ascending (sorted l) /\ Permutation (sorted l) l /\
             forall w, filter (fun e => weight e =? w) (sorted l) =
                       filter (fun e => weight e =? w) l) /\
  (forall l l', ascending l' ->
                (forall w, filter (fun e => weight e =? w) l' =
                           filter (fun e => weight e =? w) l) ->
                l' = sorted l) /\
  fst (kruskal depth (build 4 [(0, 1, 1); (1, 2, 2); (0, 2, 3); (2, 3, 1)])) =
    Returns [(0, 1, 1); (2, 3, 1); (1, 2, 2)] /\
  total_weight [(0, 1, 1); (2, 3, 1); (1, 2, 2)] = 4.
Proof.
  split; [intros g; now rewrite kruskal_state|].
  split.
  { intros l. split; [apply sorted_ascending|].
    split; [apply sorted_perm | intros w; apply sorted_stable]. }
  split.
  { intros l l' Hasc Hcl. apply ascending_classes_eq;
      [exact Hasc | apply sorted_ascending |].
    intros w. now rewrite sorted_stable. }
  split; [|reflexivity].
  destruct depth as [|[|d]]; [lia | lia |]. vm_compute. reflexivity.
Qed.

Lemma kruskal_stable_sort_example_witness :
  fst (kruskal 2 (build 4 [(0, 1, 1); (1, 2, 2); (0, 2, 3); (2, 3, 1)])) =
    Returns [(0, 1, 1); (2, 3, 1); (1, 2, 2)].
Proof.
  apply (kruskal_stable_sort_example 2). apply le_n.
Defined.

(** C4.  A second call of [kruskal] on the object left by the first one
    has the same outcome and leaves the same object. *)
Theorem kruskal_twice_same_result (depth : nat) (g : Graph) :
  let first := kruskal depth g in
  let second := kruskal depth (snd first) in
  fst second = fst first /\ snd second = snd first.
Proof.
  cbv zeta. rewrite !kruskal_scan, !kruskal_state. cbn [V graph].
  now rewrite sorted_idem.
Qed.

(** C8.  With [V = 0] or [V = 1] the loop test of [kruskal] fails at once:
    the body is never entered and the call returns the empty list,
    whatever the edge list and the recursion budget. *)
Theorem kruskal_trivial_vertex_set (depth : nat) (g : Graph) :
  V g = 0 \/ V g = 1 ->
  fst (kruskal depth g) = Returns [] /\
  forall es i parent rank,
    kruskal_loop 1 depth (V g) es i 0 parent rank [] = Returns [].
Proof.
  intros H. split.
  - unfold kruskal. destruct (make_sets (V g)) as [parent rank].
    cbn [fst kruskal_loop]. destruct H as [-> | ->]; reflexivity.
  - intros es i parent rank. cbn [kruskal_loop].
    destruct H as [-> | ->]; reflexivity.
Qed.

Lemma kruskal_trivial_vertex_set_witness :
  fst (kruskal 0 (build 1 [(0, 1, 5); (7, 7, 2)])) = Returns [].
Proof.
  apply (kruskal_trivial_vertex_set 0 (build 1 [(0, 1, 5); (7, 7, 2)])).
  right. reflexivity.
Defined.

Import RectM.

(** C5.  [overlaps] holds exactly when the two projections meet with
    strictly positive length on both axes; it is symmetric; rectangles that
    only share a boundary line do not overlap. *)
Theorem overlaps_strict_symmetric (a b : Rect) :
  (overlaps a b = true <->
     Z.min (right a) (right b) > Z.max (left a) (left b) /\
     Z.min (bottom a) (bottom b) > Z.max (top a) (top b)) /\
  overlaps a b = overlaps b a /\
  (right a = left b \/ left a = right b \/ bottom a = top b \/ top a = bottom b ->
   overlaps a b = false).
Proof.
  unfold overlaps. split; [|split].
  - rewrite andb_true_iff. rewrite !Z.gtb_ltb, !Z.ltb_lt. lia.
  - now rewrite (Z.min_comm (right a)), (Z.max_comm (left a)),
      (Z.min_comm (bottom a)), (Z.max_comm (top a)).
  - intros H. apply andb_false_iff. rewrite !Z.gtb_ltb, !Z.ltb_ge. lia.
Qed.

Lemma overlaps_self (r : Rect) :
  0 < width r -> 0 < height r -> overlaps r r = true.
Proof.
  unfold width, height, overlaps. intros Hw Hh.
  rewrite andb_true_iff, !Z.gtb_ltb, !Z.ltb_lt. lia.
Qed.

Lemma overlaps_strict_symmetric_witness :
  overlaps (mkRect 0 10 0 10) (mkRect 10 20 0 10) = false.
Proof.
  apply (overlaps_strict_symmetric (mkRect 0 10 0 10) (mkRect 10 20 0 10)).
  left. reflexivity.
Defined.

(** C6.  [contains] holds exactly when the four edges of the other
    rectangle lie within this one's, bounds included; every rectangle
    contains itself, and containment is transitive. *)
Theorem contains_inclusive_preorder (a b : Rect) :
  (contains a b = true <->
     left b >= left a /\ right b <= right a /\
     top b >= top a /\ bottom b <= bottom a) /\
  contains a a = true /\
  (forall c, contains a b = true -> contains b c = true -> contains a c = true).
Proof.
  assert (H : forall x y, contains x y = true <->
     left y >= left x /\ right y <= right x /\ top y >= top x /\ bottom y <= bottom x).
  { intros x y. unfold contains.
    rewrite !andb_true_iff, !Z.geb_le, !Z.leb_le. lia. }
  split; [apply H|]. split.
  - apply H. lia.
  - intros c. rewrite !H. lia.
Qed.

Lemma contains_inclusive_preorder_witness :
  contains (mkRect 0 10 0 10) (mkRect 3 4 3 4) = true.
Proof.
  apply (proj2 (proj2 (contains_inclusive_preorder
                         (mkRect 0 10 0 10) (mkRect 1 9 1 9))) (mkRect 3 4 3 4));
    reflexivity.
Defined.

(** ** Facts on floats *)

Section FloatFacts.




Lemma iter_pos_inv {A : Type} (P : A -> Prop) (f : A -> A) :
  (forall x, P x -> P (f x)) -> forall n x, P x -> P (iter_pos f n x).
Proof.
  intros Hf. induction n as [n IH|n IH|]; intros x Hx; simpl; auto.
Qed.

Lemma shr_1_nonneg (mrs : shr_record) : 0 <= shr_m mrs -> 0 <= shr_m (shr_1 mrs).
Proof.
  destruct mrs as [m r s]. simpl.
  destruct m as [|[p|p|]|[p|p|]]; simpl; lia.
Qed.

Lemma shr_fexp_nonneg (m e : Z) (l : location) :
  0 <= m -> 0 <= shr_m (fst (shr_fexp prec emax m e l)).
Proof.
  intros Hm. unfold shr_fexp, shr.
  assert (H0 : 0 <= shr_m (shr_record_of_loc m l)).
  { destruct l as [|[| |]]; simpl; exact Hm. }
  destruct (fexp prec emax (Zdigits2 m + e) - e); simpl; auto.
  apply iter_pos_inv; auto using shr_1_nonneg.
Qed.

Lemma round_nearest_even_nonneg (m : Z) (l : location) :
  0 <= m -> 0 <= round_nearest_even m l.
Proof.
  intros Hm. destruct l as [|[| |]]; simpl; try lia.
  destruct (Z.even m); lia.
Qed.

Lemma binary_round_aux_not_nan (sx : bool) (m e : Z) (l : location) :
  0 <= m -> binary_round_aux prec emax sx m e l <> S754_nan.
Proof.
  intros Hm. unfold binary_round_aux.
  pose proof (shr_fexp_nonneg m e l Hm) as H1.
  destruct (shr_fexp prec emax m e l) as [mrs' e']. simpl in H1.
  pose proof (shr_fexp_nonneg _ e' loc_Exact
                (round_nearest_even_nonneg _ (loc_of_shr_record mrs') H1)) as H2.
  destruct (shr_fexp prec emax _ e' loc_Exact) as [mrs'' e'']. simpl in H2.
  destruct (shr_m mrs''); try discriminate; [|lia].
  destruct (e'' <=? emax - prec); discriminate.
Qed.

Lemma binary_normalize_not_nan (z e : Z) (s0 : bool) :
  binary_normalize prec emax z e s0 <> S754_nan.
Proof.
  destruct z; simpl; try discriminate; unfold binary_round;
    destruct (shl_align _ _ _) as [mz ez]; apply binary_round_aux_not_nan; lia.
Qed.

Lemma truediv2_finite (a : Z) (f : float) :
  truediv2 a = FOk f -> is_finite f = true.
Proof.
  unfold truediv2. pose proof (binary_normalize_not_nan a (-1) false) as Hn.
  destruct (binary_normalize prec emax a (-1) false); intros H;
    inversion H; subst; try reflexivity; try discriminate. contradiction.
Qed.


Lemma digits2_size (m : positive) : digits2_pos m = Pos.size m.
Proof. induction m; simpl; congruence. Qed.

Lemma digits2_bound (m : positive) (k : Z) :
  0 <= k -> Zpos m < 2 ^ k -> Zpos (digits2_pos m) <= k.
Proof.
  intros Hk Hm. rewrite digits2_size.
  pose proof (Pos.size_le m) as Hs.
  assert (H2 : 2 ^ Zpos (Pos.size m) <= 2 * Zpos m).
  { change (2 * Zpos m) with (Zpos (m~0)). rewrite <- Pos2Z.inj_pow.
    apply Pos2Z.pos_le_pos. exact Hs. }
  destruct (Z.le_gt_cases (Zpos (Pos.size m)) k) as [H|H]; [exact H|].
  exfalso. assert (2 ^ (k + 1) <= 2 ^ Zpos (Pos.size m)).
  { apply Z.pow_le_mono_r; lia. }
  rewrite Z.pow_add_r in H0 by lia. lia.
Qed.

Lemma iter_xO_value (m k : positive) :
  Zpos (Pos.iter xO m k) = Zpos m * 2 ^ Zpos k.
Proof.
  induction k as [|k IH] using Pos.peano_ind.
  - simpl Pos.iter. change (2 ^ 1) with 2. lia.
  - rewrite Pos.iter_succ, Pos2Z.inj_succ, Z.pow_succ_r by lia.
    rewrite Pos2Z.inj_xO, IH. lia.
Qed.

Lemma iter_xO_digits (m k : positive) :
  Zpos (digits2_pos (Pos.iter xO m k)) = Zpos (digits2_pos m) + Zpos k.
Proof.
  induction k as [|k IH] using Pos.peano_ind.
  - simpl. lia.
  - rewrite Pos.iter_succ. simpl digits2_pos. lia.
Qed.

(** A mantissa of 53 bits within the exponent range is kept as it is. *)
Lemma binary_round_aux_exact (sx : bool) (m : positive) (e : Z) :
  Zpos (digits2_pos m) = 53 -> -1074 <= e <= 971 ->
  binary_round_aux prec emax sx (Zpos m) e loc_Exact = S754_finite sx m e.
Proof.
  intros Hd He. unfold binary_round_aux.
  assert (Hs : shr_fexp prec emax (Zpos m) e loc_Exact =
               ({| shr_m := Zpos m; shr_r := false; shr_s := false |}, e)).
  { unfold shr_fexp. cbn [Zdigits2]. rewrite Hd.
    replace (fexp prec emax (53 + e) - e) with 0
      by (unfold fexp, emin, prec, emax; lia).
    reflexivity. }
  rewrite Hs. cbn [shr_m loc_of_shr_record round_nearest_even]. rewrite Hs.
  cbn [shr_m].
  destruct (Z.leb_spec e (emax - prec)) as [_|H]; [reflexivity|].
  unfold emax, prec in H. lia.
Qed.

(** Rounding a number of at most 53 bits changes its writing only. *)
Lemma binary_round_exact (sx : bool) (m : positive) (e : Z) :
  Zpos m < 2 ^ 53 -> -1021 <= e <= 918 ->
  exists mz ez,
    binary_round prec emax sx m e = S754_finite sx mz ez /\
    exists k, 0 <= k /\ Zpos mz = Zpos m * 2 ^ k /\ ez = e - k /\
              Zpos (digits2_pos mz) = 53.
Proof.
  intros Hm He.
  pose proof (digits2_bound m 53 ltac:(lia) Hm) as Hd.
  assert (Hd1 : 1 <= Zpos (digits2_pos m)) by lia.
  unfold binary_round.
  replace (fexp prec emax (Zpos (digits2_pos m) + e))
    with (Zpos (digits2_pos m) + e - 53)
    by (unfold fexp, emin, prec, emax; lia).
  unfold shl_align.
  replace (Zpos (digits2_pos m) + e - 53 - e) with (Zpos (digits2_pos m) - 53)
    by lia.
  destruct (Zpos (digits2_pos m) - 53) as [|p|p] eqn:E; [| lia |].
  - exists m, e. split.
    + apply binary_round_aux_exact; lia.
    + exists 0. rewrite Z.mul_1_r. split; [lia|]. split; [reflexivity|].
      split; lia.
  - exists (Pos.iter xO m p), (Zpos (digits2_pos m) + e - 53). split.
    + apply binary_round_aux_exact; [rewrite iter_xO_digits|]; lia.
    + exists (Zpos p). split; [lia|]. split; [apply iter_xO_value|].
      split; [lia|]. rewrite iter_xO_digits. lia.
Qed.

Lemma to_R_scaled (s : bool) (m mz : positive) (e k : Z) :
  0 <= k -> Zpos mz = Zpos m * 2 ^ k ->
  (to_R (S754_finite s mz (e - k)) = IZR (cond_Zopp s (Zpos m)) * powerRZ 2 e)%R.
Proof.
  intros Hk Hmz. unfold to_R.
  assert (Hz : cond_Zopp s (Zpos mz) = cond_Zopp s (Zpos m) * 2 ^ k).
  { destruct s; simpl cond_Zopp; rewrite ?Hmz; lia. }
  rewrite Hz, mult_IZR.
  replace (IZR (2 ^ k)) with (powerRZ 2 k).
  - rewrite Rmult_assoc, <- powerRZ_add by lra. f_equal. f_equal. lia.
  - rewrite <- (Z2Nat.id k Hk). generalize (Z.to_nat k) as n. intros n.
    now rewrite <- pow_powerRZ, <- pow_IZR.
Qed.

(** A number of at most 53 bits, scaled by a power of two in range, is
    a float. *)
Lemma binary_normalize_exact (z e : Z) (s0 : bool) :
  Z.abs z < 2 ^ 53 -> -1021 <= e <= 918 ->
  binary_normalize prec emax z e s0 <> S754_nan /\
  (forall s, binary_normalize prec emax z e s0 <> S754_infinity s) /\
  (to_R (binary_normalize prec emax z e s0) = IZR z * powerRZ 2 e)%R.
Proof.
  intros Hz He. destruct z as [|m|m]; simpl binary_normalize.
  - split; [discriminate|]. split; [discriminate|]. simpl. lra.
  - destruct (binary_round_exact false m e) as (mz & ez & -> & k & Hk & Hm & -> & _);
      [lia | lia |].
    split; [discriminate|]. split; [discriminate|].
    now apply (to_R_scaled false m mz e k).
  - destruct (binary_round_exact true m e) as (mz & ez & -> & k & Hk & Hm & -> & _);
      [lia | lia |].
    split; [discriminate|]. split; [discriminate|].
    now apply (to_R_scaled true m mz e k).
Qed.

Lemma truediv2_exact (a : Z) :
  Z.abs a < 2 ^ 53 ->
  exists f, truediv2 a = FOk f /\ (2 * to_R f = IZR a)%R.
Proof.
  intros Ha.
  destruct (binary_normalize_exact a (-1) false Ha ltac:(lia)) as (Hn & Hi & Hv).
  unfold truediv2.
  destruct (binary_normalize prec emax a (-1) false) as [s|s| |s m e] eqn:E.
  - exists (S754_zero s). split; [reflexivity|]. rewrite Hv. simpl. lra.
  - exfalso. now apply (Hi s).
  - contradiction.
  - exists (S754_finite s m e). split; [reflexivity|]. rewrite Hv. simpl. lra.
Qed.

End FloatFacts.




Import PanelM.

(** C9.  Reading [repeating] never returns a value: each call of the
    getter is one more call of the getter, whatever number of frames is
    allowed, for a panel and so for a diagram and a label; the constructor
    and the setter do store the flag in [_repeating]. *)
Theorem repeating_getter_never_returns (depth : nat) (p : Panel) :
  repeating_get depth p = Raises RecursionError /\
  (forall b, repeating_get depth p <> Returns b) /\
  (forall d : Diagram, repeating_get depth (diagram_panel d) = Raises RecursionError) /\
  (forall l : Label, repeating_get depth (label_panel l) = Raises RecursionError) /\
  (forall le ri to bo tg, _repeating (PanelM.init le ri to bo tg) = Some false) /\
  (forall b, _repeating (repeating_set p b) = Some b).
Proof.
  assert (H : forall q, repeating_get depth q = Raises RecursionError).
  { intros q. induction depth as [|d IH]; simpl; auto. }
  split; [apply H|]. split; [intros b; rewrite H; discriminate|].
  repeat split; intros; apply H.
Qed.

(** C10.  A diagram whose [label] is [None], as the constructor leaves it
    by default, fails in [__repr__] and in [__str__] on [self.label.tag];
    either conversion returns a string only when a label has been
    assigned, and then it does. *)
Theorem diagram_repr_requires_label (d : Diagram) :
  (forall le ri to bo tg sm,
     DiagramM.label (DiagramM.init le ri to bo tg None sm) = None) /\
  (DiagramM.label d = None ->
     DiagramM.repr d = Raises (AttributeError "NoneType" "tag") /\
     DiagramM.str d = Raises (AttributeError "NoneType" "tag")) /\
  (forall s, DiagramM.repr d = Returns s \/ DiagramM.str d = Returns s ->
     exists l, DiagramM.label d = Some l) /\
  (forall l, exists s s',
     DiagramM.repr (DiagramM.label_set d (Some l)) = Returns s /\
     DiagramM.str (DiagramM.label_set d (Some l)) = Returns s').
Proof.
  split; [reflexivity|]. split; [|split].
  - intros H. unfold DiagramM.repr, DiagramM.str, DiagramM.label_tag.
    rewrite H. split; reflexivity.
  - intros s H. unfold DiagramM.repr, DiagramM.str, DiagramM.label_tag in H.
    destruct (DiagramM.label d) as [l|]; [eauto|].
    destruct H as [H|H]; discriminate H.
  - intros l. eexists. eexists. split; reflexivity.
Qed.

Lemma diagram_repr_requires_label_witness :
  DiagramM.repr (DiagramM.init 0 10 0 10 "d" None None) =
    Raises (AttributeError "NoneType" "tag") /\
  DiagramM.str (DiagramM.init 0 10 0 10 "d" None None) =
    Raises (AttributeError "NoneType" "tag").
Proof.
  apply (diagram_repr_requires_label (DiagramM.init 0 10 0 10 "d" None None)).
  reflexivity.
Defined.

(** * Further properties of the graph *)

Section Termination.

Lemma find_finished (depth : nat) (parent : list Z) (i : Z) :
  find depth parent i <> Unfinished.
Proof.
  revert i. induction depth as [|d IH]; intros i; simpl; [discriminate|].
  unfold getitem. destruct (norm_index _ i) as [k|]; [|discriminate].
  destruct (nth_error parent k) as [p|]; [|discriminate]. cbn [bind].
  destruct (p =? i); [discriminate | apply IH].
Qed.

Lemma getitem_finished {A : Type} (site : seq_site) (l : list A) (i : Z) :
  getitem site l i <> Unfinished.
Proof.
  unfold getitem. destruct (norm_index _ i) as [k|]; [|discriminate].
  destruct (nth_error l k); discriminate.
Qed.

Lemma setitem_finished {A : Type} (site : seq_site) (l : list A) (i : Z) (x : A) :
  setitem site l i x <> Unfinished.
Proof. unfold setitem. destruct (norm_index _ i); discriminate. Qed.

Lemma union_finished (depth : nat) (parent rank : list Z) (x y : Z) :
  union depth parent rank x y <> Unfinished.
Proof.
  unfold union.
  pose proof (find_finished depth parent x) as Hx.
  destruct (find depth parent x) as [xr| |]; cbn [bind]; try discriminate;
    [|contradiction].
  pose proof (find_finished depth parent y) as Hy.
  destruct (find depth parent y) as [yr| |]; cbn [bind]; try discriminate;
    [|contradiction].
  pose proof (getitem_finished RankList rank xr) as Gx.
  destruct (getitem RankList rank xr) as [rx| |]; cbn [bind]; try discriminate;
    [|contradiction].
  pose proof (getitem_finished RankList rank yr) as Gy.
  destruct (getitem RankList rank yr) as [ry| |]; cbn [bind]; try discriminate;
    [|contradiction].
  pose proof (setitem_finished ParentList parent xr yr) as Sx.
  pose proof (setitem_finished ParentList parent yr xr) as Sy.
  pose proof (setitem_finished RankList rank xr (rx + 1)) as Sr.
  destruct (rx <? ry).
  - destruct (setitem ParentList parent xr yr); cbn [bind]; try discriminate.
    contradiction.
  - destruct (rx >? ry).
    + destruct (setitem ParentList parent yr xr); cbn [bind]; try discriminate.
      contradiction.
    + destruct (setitem ParentList parent yr xr); cbn [bind]; try discriminate;
        [|contradiction].
      destruct (setitem RankList rank xr (rx + 1)); cbn [bind]; try discriminate.
      contradiction.
Qed.

Lemma subseq_ascending (k l : list edge) : subseq k l -> ascending l -> ascending k.
Proof.
  unfold ascending. induction 1 as [|x k l Hs IH|x k l Hs IH]; intros Hl.
  - constructor.
  - inversion Hl; auto.
  - inversion Hl as [|? ? Hl' Hx]; subst. constructor; [auto|].
    rewrite Forall_forall in *. intros y Hy. apply Hx.
    clear - Hs Hy. induction Hs; simpl in *; intuition auto.
Qed.

(** What the loop returns, whatever the lists hold. *)
Lemma scan_shape (depth : nat) (n : Z) (rest : list edge) :
  forall parent rank result,
    match scan depth n rest (Z.of_nat (length result)) parent rank result with
    | Returns K =>
        (exists K', K = result ++ K' /\ subseq K' rest) /\
        Z.of_nat (length K) = Z.max (Z.of_nat (length result)) (n - 1)
    | Raises _ => True
    | Unfinished => False
    end.
Proof.
  induction rest as [|[[u v] w] rest IH]; intros parent rank result; cbn [scan].
  - destruct (Z.ltb_spec (Z.of_nat (length result)) (n - 1)); [exact I|].
    split; [exists []; rewrite app_nil_r; split; [reflexivity | constructor]|]. lia.
  - destruct (Z.ltb_spec (Z.of_nat (length result)) (n - 1)) as [Hlt|Hge].
    + pose proof (find_finished depth parent u) as Hu.
      destruct (find depth parent u) as [x| |]; cbn [bind]; auto.
      pose proof (find_finished depth parent v) as Hv.
      destruct (find depth parent v) as [y| |]; cbn [bind]; auto.
      destruct (negb (x =? y)).
      * pose proof (union_finished depth parent rank x y) as Hun.
        destruct (union depth parent rank x y) as [[parent' rank']| |];
          cbn [bind]; auto.
        specialize (IH parent' rank' (result ++ [(u, v, w)])).
        replace (Z.of_nat (length (result ++ [(u, v, w)])))
          with (Z.of_nat (length result) + 1) in IH
          by (rewrite length_app; cbn [length]; lia).
        destruct (scan depth n rest _ parent' rank' _) as [K| |]; auto.
        destruct IH as [[K' [-> Hs]] Hlen]. split.
        -- exists ((u, v, w) :: K'). rewrite <- app_assoc. split; [reflexivity|].
           now constructor.
        -- lia.
      * specialize (IH parent rank result).
        destruct (scan depth n rest _ parent rank result) as [K| |]; auto.
        destruct IH as [[K' [-> Hs]] Hlen]. split; [|exact Hlen].
        exists K'. split; [reflexivity | now constructor].
    + split; [exists []; rewrite app_nil_r; split;
              [reflexivity | apply subseq_nil_l]|]. lia.
Qed.

End Termination.

(** X1.  The [while] loop of [kruskal] ends on every graph and under every
    recursion budget, by a [return] or by an exception: each iteration
    moves one edge further in a list that does not grow. *)
Theorem kruskal_always_ends (depth : nat) (g : Graph) :
  fst (kruskal depth g) <> Unfinished.
Proof.
  rewrite kruskal_scan.
  pose proof (scan_shape depth (V g) (sorted (graph g))
                (range (V g)) (map (fun _ => 0) (range (V g))) []) as H.
  cbn [length Z.of_nat] in H. intros E. rewrite E in H. exact H.
Qed.

(** X2.  Whenever [kruskal] returns, and whatever the edges are, it returns
    exactly [max(0, V-1)] edges, picked in order from the sorted edge
    list: they are edges of the graph, of non-decreasing weight. *)
Theorem kruskal_returns_shape (depth : nat) (g : Graph) (K : list edge) :
  fst (kruskal depth g) = Returns K ->
  Z.of_nat (length K) = Z.max 0 (V g - 1) /\
  subseq K (sorted (graph g)) /\
  incl K (graph g) /\
  ascending K.
Proof.
  rewrite kruskal_scan. intros E.
  pose proof (scan_shape depth (V g) (sorted (graph g))
                (range (V g)) (map (fun _ => 0) (range (V g))) []) as H.
  cbn [length Z.of_nat] in H. rewrite E in H.
  destruct H as [[K' [HK Hs]] Hlen]. simpl in HK. subst K'.
  split; [exact Hlen|]. split; [exact Hs|]. split.
  - intros z Hz. apply sorted_In.
    clear - Hs Hz. induction Hs; simpl in *; intuition auto.
  - eapply subseq_ascending; [exact Hs | apply sorted_ascending].
Qed.

Lemma kruskal_returns_shape_witness :
  Z.of_nat (length [(0, 1, 1); (2, 3, 1); (1, 2, 2)]) = Z.max 0 (4 - 1).
Proof.
  apply (kruskal_returns_shape 2
           (build 4 [(0, 1, 1); (1, 2, 2); (0, 2, 3); (2, 3, 1)])).
  reflexivity.
Defined.

Section FindUnion.

Lemma find_fixed (depth : nat) (parent : list Z) :
  forall i r, find depth parent i = Returns r ->
              getitem ParentList parent r = Returns r.
Proof.
  induction depth as [|d IH]; intros i r; simpl; [discriminate|].
  destruct (getitem ParentList parent i) as [p| |] eqn:E; cbn [bind];
    try discriminate.
  destruct (Z.eqb_spec p i) as [->|Hne].
  - intros H. inversion H; subst. exact E.
  - apply IH.
Qed.

Lemma find_deeper (depth : nat) (parent : list Z) :
  forall i r, find depth parent i = Returns r ->
              find (S depth) parent i = Returns r.
Proof.
  induction depth as [|d IH]; intros i r; [discriminate|].
  intros H. change (find (S (S d)) parent i) with
    (p <- getitem ParentList parent i ;;
     if p =? i then Returns i
     else p <- getitem ParentList parent i ;; find (S d) parent p).
  simpl in H.
  destruct (getitem ParentList parent i) as [p| |]; cbn [bind] in *;
    try discriminate.
  destruct (p =? i); [exact H | now apply IH].
Qed.

Lemma find_root_eq (n : Z) (parent rank : list Z) (M : Z) (depth : nat) i r :
  uf_inv n parent rank M -> 0 <= i < n -> M < Z.of_nat depth ->
  root parent i r -> find depth parent i = Returns r.
Proof.
  intros Hinv Hi Hd Hr.
  destruct (find_spec n parent rank M depth Hinv i Hi) as (r' & Hf & Hr' & _).
  { pose proof (inv_rank _ _ _ _ Hinv i Hi). lia. }
  now rewrite (root_det _ _ _ _ Hr Hr').
Qed.

Lemma update_same {A : Type} (l : list A) (k : nat) (d : A) :
  (k < length l)%nat -> update l k (nth k l d) = l.
Proof.
  revert k. induction l as [|h t IH]; intros [|k] H; simpl in *; try lia; auto.
  f_equal. apply IH. lia.
Qed.

(** [union] goes through the two roots. *)
Lemma union_via_roots (depth : nat) (parent rank : list Z) (x y xr yr : Z) :
  find depth parent x = Returns xr -> find depth parent y = Returns yr ->
  find depth parent xr = Returns xr -> find depth parent yr = Returns yr ->
  union depth parent rank x y = union depth parent rank xr yr.
Proof. intros Hx Hy Hxr Hyr. unfold union. now rewrite Hx, Hy, Hxr, Hyr. Qed.

(** [union] inside one tree: the links stay, the rank of the root grows. *)
Lemma union_same_root (n : Z) (parent rank : list Z) (M : Z) (depth : nat) (r : Z) :
  uf_inv n parent rank M -> 0 <= r < n -> item parent r = r -> (0 < depth)%nat ->
  union depth parent rank r r =
    Returns (parent, update rank (Z.to_nat r) (item rank r + 1)) /\
  uf_inv n parent (update rank (Z.to_nat r) (item rank r + 1)) (M + 1).
Proof.
  intros Hinv Hr Hfix Hd.
  pose proof (inv_plen _ _ _ _ Hinv) as Hpl.
  pose proof (inv_rlen _ _ _ _ Hinv) as Hrl.
  split.
  - unfold union. rewrite (find_root_self depth parent r) by (auto; lia).
    cbn [bind]. rewrite (getitem_in _ rank r 0) by lia. fold (item rank r).
    cbn [bind]. rewrite Z.ltb_irrefl. cbn [bind].
    rewrite Z.gtb_ltb, Z.ltb_irrefl. rewrite !setitem_in by lia. cbn [bind].
    f_equal. f_equal. rewrite <- Hfix at 2. unfold item. apply update_same. lia.
  - assert (Hrk : forall i, 0 <= i < n ->
      item rank i <= item (update rank (Z.to_nat r) (item rank r + 1)) i <= M + 1).
    { intros i Hi. pose proof (inv_rank _ _ _ _ Hinv i Hi).
      destruct (Z.eq_dec i r) as [->|E].
      - rewrite item_update_eq by lia. lia.
      - rewrite item_update_neq by lia. lia. }
    constructor; auto.
    + rewrite update_length. exact Hrl.
    + apply (inv_parent _ _ _ _ Hinv).
    + intros i Hi. pose proof (inv_rank _ _ _ _ Hinv i Hi).
      pose proof (Hrk i Hi). lia.
    + intros i Hi Hne. assert (i <> r) by congruence.
      rewrite (item_update_neq rank r i) by lia.
      pose proof (inv_up _ _ _ _ Hinv i Hi Hne).
      pose proof (Hrk (item parent i) (inv_parent _ _ _ _ Hinv i Hi)). lia.
Qed.

End FindUnion.

(** X3.  [find] only ever returns a root, an index [r] with
    [parent[r] == r], and a result reached within some recursion budget is
    the result under every larger one. *)
Theorem find_returns_root (depth : nat) (parent : list Z) (i r : Z) :
  find depth parent i = Returns r ->
  getitem ParentList parent r = Returns r /\
  forall k, find (depth + k) parent i = Returns r.
Proof.
  intros H. split; [eapply find_fixed; eauto|].
  intros k. induction k as [|k IH].
  - now rewrite Nat.add_0_r.
  - rewrite Nat.add_succ_r. now apply find_deeper.
Qed.

Lemma find_returns_root_witness :
  getitem ParentList [1; 2; 2] 2 = Returns 2.
Proof.
  apply (find_returns_root 3 [1; 2; 2] 0 2). reflexivity.
Defined.

(** X4.  On a well-shaped forest, [union(x, y)] merges the class of [x]
    with the class of [y] and nothing else: afterwards two vertices have
    the same root exactly when they had before or when one was with [x]
    and the other with [y]; the forest stays well shaped.  When [x] and
    [y] are already in one class, [parent] is left as it was. *)
Theorem union_merges_classes (n : Z) (parent rank : list Z) (M : Z)
        (depth : nat) (x y : Z) :
  uf_inv n parent rank M -> 0 <= x < n -> 0 <= y < n -> M < Z.of_nat depth ->
  exists parent' rank',
    union depth parent rank x y = Returns (parent', rank') /\
    uf_inv n parent' rank' (M + 1) /\
    (forall i j, 0 <= i < n -> 0 <= j < n ->
       (find (S depth) parent' i = find (S depth) parent' j <->
        find depth parent i = find depth parent j \/
        (find depth parent i = find depth parent x /\
         find depth parent j = find depth parent y) \/
        (find depth parent i = find depth parent y /\
         find depth parent j = find depth parent x))) /\
    (find depth parent x = find depth parent y -> parent' = parent).
Proof.
  intros Hinv Hx Hy Hd.
  assert (Hdn : (0 < depth)%nat).
  { pose proof (inv_rank _ _ _ _ Hinv x Hx). lia. }
  destruct (root_exists n parent rank M Hinv x Hx) as (xr & Rx & Hxr & Fxr).
  destruct (root_exists n parent rank M Hinv y Hy) as (yr & Ry & Hyr & Fyr).
  pose proof (find_root_eq n parent rank M depth x xr Hinv Hx Hd Rx) as Ex.
  pose proof (find_root_eq n parent rank M depth y yr Hinv Hy Hd Ry) as Ey.
  pose proof (inv_plen _ _ _ _ Hinv) as Hpl.
  rewrite (union_via_roots depth parent rank x y xr yr Ex Ey)
    by (apply find_root_self; auto; lia).
  assert (Hold : forall i, 0 <= i < n ->
            exists ri, root parent i ri /\ find depth parent i = Returns ri).
  { intros i Hi. destruct (root_exists n parent rank M Hinv i Hi) as (ri & Ri & _).
    exists ri. split; [exact Ri|]. eapply find_root_eq; eauto. }
  destruct (Z.eq_dec xr yr) as [E|Hne].
  - subst yr.
    destruct (union_same_root n parent rank M depth xr Hinv Hxr Fxr Hdn) as [Hu Hinv'].
    rewrite Hu. eexists. eexists. split; [reflexivity|]. split; [exact Hinv'|].
    split; [|reflexivity].
    intros i j Hi Hj.
    destruct (Hold i Hi) as (ri & Ri & Fi). destruct (Hold j Hj) as (rj & Rj & Fj).
    rewrite (find_deeper _ _ _ _ Fi), (find_deeper _ _ _ _ Fj), Fi, Fj, Ex, Ey.
    split; [auto|]. intros [H|[[H1 H2]|[H1 H2]]]; congruence.
  - destruct (union_spec n parent rank M depth xr yr Hinv Hxr Hyr Fxr Fyr Hne Hdn)
      as (parent' & rank' & c & p & Hu & Hcp & Hpar & Hinv' & _).
    rewrite Hu. exists parent', rank'. split; [reflexivity|].
    split; [exact Hinv'|]. split.
    + assert (Hc : 0 <= c < n) by (destruct Hcp as [[-> _]|[-> _]]; auto).
      assert (Hp : 0 <= p < n) by (destruct Hcp as [[_ ->]|[_ ->]]; auto).
      assert (Hfc : item parent c = c) by (destruct Hcp as [[-> _]|[-> _]]; auto).
      assert (Hfp : item parent p = p) by (destruct Hcp as [[_ ->]|[_ ->]]; auto).
      assert (Hcne : c <> p) by (destruct Hcp as [[-> ->]|[-> ->]]; auto).
      assert (Hnew : forall i ri, 0 <= i < n -> root parent i ri ->
                find (S depth) parent' i = Returns (if ri =? c then p else ri)).
      { intros i ri Hi Ri. apply (find_root_eq n parent' rank' (M + 1)); auto;
          [lia|]. subst parent'. eapply root_link; eauto. }
      intros i j Hi Hj.
      destruct (Hold i Hi) as (ri & Ri & Fi). destruct (Hold j Hj) as (rj & Rj & Fj).
      rewrite (Hnew i ri Hi Ri), (Hnew j rj Hj Rj), Fi, Fj, Ex, Ey.
      assert (Hinj : forall a b : Z, @Returns Z a = Returns b <-> a = b).
      { intros a b. split; [intros H; now inversion H | now intros ->]. }
      rewrite !Hinj.
      destruct (Z.eqb_spec ri c), (Z.eqb_spec rj c); lia.
    + intros H. rewrite Ex, Ey in H. inversion H. contradiction.
Qed.

Lemma union_merges_classes_witness :
  exists parent' rank',
    union 1 (range 2) (map (fun _ => 0) (range 2)) 0 1 = Returns (parent', rank').
Proof.
  destruct (union_merges_classes 2 (range 2) (map (fun _ => 0) (range 2)) 0 1 0 1)
    as (parent' & rank' & H & _).
  - apply (li_uf _ _ _ _ (loop_inv_init 2 ltac:(lia))).
  - lia.
  - lia.
  - simpl. lia.
  - exists parent', rank'. exact H.
Defined.

Section Outcomes.

Lemma forallb_false_witness {A : Type} (f : A -> bool) (l : list A) :
  forallb f l = false -> exists x, In x l /\ f x = false.
Proof.
  induction l as [|a l IH]; simpl; [discriminate|].
  destruct (f a) eqn:E; simpl; intros H.
  - destruct (IH H) as [x [Hx Hf]]. exists x. auto.
  - exists a. auto.
Qed.

(** A graph on at least one vertex has one component or several. *)
Lemma connected_or_disconnected (n : Z) (es : list edge) :
  0 < n -> connected n es \/ disconnected n es.
Proof.
  intros Hn.
  destruct (forallb (fun x => label es x =? label es 0) (range n)) eqn:E.
  - left. exists 0. split; [lia|]. intros x Hx.
    rewrite forallb_forall in E. apply conn_sym, label_conn, Z.eqb_eq, E.
    now apply range_In.
  - right. apply forallb_false_witness in E. destruct E as [x [Hx Hf]].
    apply range_In in Hx. exists x, 0. split; [exact Hx|]. split; [lia|].
    intros H. apply label_conn in H. apply Z.eqb_neq in Hf. contradiction.
Qed.

Lemma forest_NoDup (es : list edge) : forest es -> NoDup es.
Proof.
  induction es as [|[[u v] w] es IH]; simpl; [constructor|].
  intros [Hn Hf]. constructor; [|auto].
  intros Hin. apply Hn. now apply conn_edge with w.
Qed.

Lemma forest_no_loop (es : list edge) u w : forest es -> ~ In (u, u, w) es.
Proof.
  induction es as [|[[a b] c] es IH]; simpl; [tauto|].
  intros [Hn Hf] [E|Hin]; [|now apply IH].
  inversion E; subst. apply Hn. constructor.
Qed.

Lemma wf_edges_perm (n : Z) (es es' : list edge) :
  Permutation es es' -> wf_edges n es -> wf_edges n es'.
Proof.
  intros Hp. apply wf_edges_incl. intros z Hz.
  eapply Permutation_in; [symmetry; exact Hp | exact Hz].
Qed.

(** What [kruskal] returns on a connected graph. *)
Lemma kruskal_on_connected (depth : nat) (n : Z) (es : list edge) :
  wf_edges n es -> connected n es -> Z.log2 n < Z.of_nat depth ->
  exists K,
    fst (kruskal depth (build n es)) = Returns K /\
    wf_edges n K /\ forest (rev K) /\ ascending K /\ incl K es /\
    Z.of_nat (length K) = n - 1 /\ connected n K /\
    (forall u v w, In (u, v, w) es -> conn (upto w K) u v).
Proof.
  intros Hwf Hcon Hd.
  assert (Hn : 0 < n) by (destruct Hcon as [r [Hr _]]; lia).
  assert (Hn0 : 0 <= n) by lia.
  pose proof (kruskal_post depth n es Hn0 Hwf Hd) as Hpost.
  destruct (fst (kruskal depth (build n es))) as [K|ex|]; simpl in Hpost.
  - destruct Hpost as (_ & HwK & HfK & HaK & HiK & Hlen & Hth).
    destruct (forest_full_connected n (rev K)) as [HcK HlK]; auto.
    { now apply wf_edges_rev. }
    { rewrite length_rev. exact Hlen. }
    rewrite length_rev in HlK.
    exists K. split; [reflexivity|]. split; [exact HwK|]. split; [exact HfK|].
    split; [exact HaK|]. split; [intros z Hz; apply sorted_In; auto|].
    split; [exact HlK|]. split.
    + eapply connected_incl; [|exact HcK].
      intros u v w Hin. apply conn_edge with w. now apply in_rev.
    + intros u v w Hin. apply Hth. now apply sorted_In.
  - exfalso. destruct Hpost as [_ (K & HwK & HfK & HiK & Hlen & Hall)].
    assert (HcK : connected n (rev K)).
    { eapply connected_incl; [|exact Hcon].
      intros u v w Hin. apply conn_incl with K; [intros z Hz; now rewrite <- in_rev|].
      apply (Hall u v w). now apply sorted_In. }
    pose proof (connected_ncomp n (rev K) (wf_edges_rev _ _ HwK) HcK) as Hc.
    pose proof (ncomp_forest n (rev K) (wf_edges_rev _ _ HwK) HfK) as Hf.
    rewrite length_rev in Hf. lia.
  - destruct Hpost.
Qed.

(** A return means that the accepted edges join all the vertices. *)
Lemma kruskal_return_connected (depth : nat) (n : Z) (es K : list edge) :
  wf_edges n es -> 0 < n -> Z.log2 n < Z.of_nat depth ->
  fst (kruskal depth (build n es)) = Returns K ->
  forest (rev K) /\ connected n es.
Proof.
  intros Hwf Hn Hd E.
  assert (Hn0 : 0 <= n) by lia.
  pose proof (kruskal_post depth n es Hn0 Hwf Hd) as Hpost.
  rewrite E in Hpost. simpl in Hpost.
  destruct Hpost as (_ & HwK & HfK & _ & HiK & Hlen & _).
  split; [exact HfK|].
  destruct (forest_full_connected n (rev K)) as [HcK _]; auto.
  { now apply wf_edges_rev. }
  { rewrite length_rev. exact Hlen. }
  eapply connected_incl; [|exact HcK].
  intros u v w Hin. apply conn_edge with w.
  apply sorted_In, HiK. now apply in_rev.
Qed.

Lemma filter_perm {A : Type} (f : A -> bool) (l l' : list A) :
  Permutation l l' -> Permutation (filter f l) (filter f l').
Proof.
  induction 1 as [|x l l' Hp IH|x y l|l l' l'' H1 IH1 H2 IH2]; simpl.
  - constructor.
  - destruct (f x); auto.
  - destruct (f x), (f y); auto using perm_swap, Permutation_refl.
  - etransitivity; eauto.
Qed.

Lemma class_small (w : Z) (l : list edge) :
  NoDup (map weight l) ->
  (length (filter (fun e => (weight e =? w)%Z) l) <= 1)%nat.
Proof.
  induction l as [|x l IH]; simpl; intros Hnd; [lia|].
  inversion Hnd as [|? ? Hx Hl]; subst. specialize (IH Hl).
  destruct (Z.eqb_spec (weight x) w) as [E|E]; [|exact IH].
  destruct (filter (fun e => weight e =? w) l) as [|y t] eqn:F; simpl; [lia|].
  exfalso. apply Hx.
  assert (Hy : In y (filter (fun e => weight e =? w) l)) by (rewrite F; now left).
  apply filter_In in Hy. destruct Hy as [Hy Hw]. apply Z.eqb_eq in Hw.
  rewrite E, <- Hw. now apply in_map.
Qed.

(** With pairwise distinct weights the sorted list forgets the order of
    insertion. *)
Lemma sorted_perm_distinct (l l' : list edge) :
  NoDup (map weight l) -> Permutation l l' -> sorted l = sorted l'.
Proof.
  intros Hnd Hp. apply ascending_classes_eq; try apply sorted_ascending.
  intros w. rewrite !sorted_stable.
  pose proof (class_small w l Hnd) as Hs.
  pose proof (filter_perm (fun e => weight e =? w) l l' Hp) as Hf.
  destruct (filter (fun e => weight e =? w) l) as [|a [|b t]]; simpl in Hs; try lia.
  - apply Permutation_nil in Hf. now rewrite Hf.
  - apply Permutation_length_1_inv in Hf. now rewrite Hf.
Qed.

Lemma sorted_app_sorted (l more : list edge) :
  sorted (sorted l ++ more) = sorted (l ++ more).
Proof.
  apply ascending_classes_eq; try apply sorted_ascending.
  intros w. rewrite !sorted_stable, !filter_app, sorted_stable. reflexivity.
Qed.

Lemma add_edges_fields (g : Graph) (es : list edge) :
  V (add_edges g es) = V g /\ graph (add_edges g es) = graph g ++ es.
Proof.
  unfold add_edges. revert g.
  induction es as [|[[u v] w] es IH]; intros g; simpl.
  - now rewrite app_nil_r.
  - destruct (IH (addEdge g u v w)) as [-> ->]. simpl.
    now rewrite <- app_assoc.
Qed.

(** The call depends on the object through [V] and the sorted edge list
    only. *)
Lemma kruskal_ext (depth : nat) (g g' : Graph) :
  V g = V g' -> sorted (graph g) = sorted (graph g') ->
  kruskal depth g = kruskal depth g'.
Proof.
  intros HV Hs.
  rewrite (surjective_pairing (kruskal depth g)),
          (surjective_pairing (kruskal depth g')).
  rewrite !kruskal_scan, !kruskal_state, HV, Hs. reflexivity.
Qed.

End Outcomes.

(** X5.  On a graph with at least one vertex and end points in [0, V),
    the outcome of [kruskal] decides connectivity: the call returns
    exactly when the graph is connected, and ends in the [IndexError] of
    the edge list exactly when it is not. *)
Theorem kruskal_outcome_decides_connectivity (depth : nat) (n : Z) (es : list edge) :
  wf_edges n es -> 0 < n -> Z.log2 n < Z.of_nat depth ->
  ((exists K, fst (kruskal depth (build n es)) = Returns K) <-> connected n es) /\
  (fst (kruskal depth (build n es)) = Raises (IndexError EdgeList) <->
   disconnected n es).
Proof.
  intros Hwf Hn Hd.
  destruct (connected_or_disconnected n es Hn) as [Hc|Hdis].
  - destruct (kruskal_on_connected depth n es Hwf Hc Hd) as (K & E & _).
    split; split; intros H; eauto.
    + rewrite E in H. discriminate H.
    + exfalso. eapply connected_disconnected; eauto.
  - assert (Hnc : ~ connected n es).
    { intros Hc. eapply connected_disconnected; eauto. }
    assert (Hnr : forall K, fst (kruskal depth (build n es)) <> Returns K).
    { intros K E. apply Hnc.
      now destruct (kruskal_return_connected depth n es K Hwf Hn Hd E). }
    assert (Hn0 : 0 <= n) by lia.
    pose proof (kruskal_post depth n es Hn0 Hwf Hd) as Hpost.
    destruct (fst (kruskal depth (build n es))) as [K|ex|]; simpl in Hpost.
    + exfalso. now apply (Hnr K).
    + destruct Hpost as [-> _]. split; split; intros H; auto.
      * destruct H as [K H]. discriminate H.
      * contradiction.
    + destruct Hpost.
Qed.

Lemma kruskal_outcome_decides_connectivity_witness :
  (exists K, fst (kruskal 3 (build 3 [(0, 1, 5); (1, 2, 5)])) = Returns K) <->
  connected 3 [(0, 1, 5); (1, 2, 5)].
Proof.
  apply (kruskal_outcome_decides_connectivity 3 3 [(0, 1, 5); (1, 2, 5)]).
  - intros u v w Hin. simpl in Hin.
    repeat (destruct Hin as [Hin|Hin]; [inversion Hin; lia|]). destruct Hin.
  - lia.
  - simpl. lia.
Defined.

(** X6.  The edges [kruskal] returns never close a cycle: each one joins
    two vertices that the edges accepted before it leave apart.  So the
    result holds no self-loop and no edge twice, even when the graph has
    self-loops and parallel edges. *)
Theorem kruskal_result_acyclic (depth : nat) (n : Z) (es K : list edge) :
  wf_edges n es -> Z.log2 n < Z.of_nat depth ->
  fst (kruskal depth (build n es)) = Returns K ->
  forest (rev K) /\ NoDup K /\ forall u w, ~ In (u, u, w) K.
Proof.
  intros Hwf Hd E.
  assert (HF : forest (rev K)).
  { destruct (Z.lt_ge_cases 0 n) as [Hn|Hn].
    - now destruct (kruskal_return_connected depth n es K Hwf Hn Hd E).
    - rewrite kruskal_scan in E.
      pose proof (scan_shape depth (V (build n es)) (sorted (graph (build n es)))
        (range (V (build n es))) (map (fun _ => 0) (range (V (build n es)))) [])
        as H.
      cbn [length Z.of_nat] in H. rewrite E in H. destruct H as [_ Hlen].
      destruct (build_fields n es) as [HV _]. rewrite HV in Hlen.
      destruct K; [exact I | simpl length in Hlen; lia]. }
  split; [exact HF|]. split.
  - apply forest_NoDup in HF. apply NoDup_rev in HF.
    now rewrite rev_involutive in HF.
  - intros u w Hin. apply (forest_no_loop (rev K) u w HF).
    now rewrite <- in_rev.
Qed.

Lemma kruskal_result_acyclic_witness :
  NoDup [(0, 1, 1); (1, 2, 1)].
Proof.
  apply (kruskal_result_acyclic 3 3 [(0, 0, 0); (0, 1, 1); (0, 1, 1); (1, 2, 1)]).
  - intros u v w Hin. simpl in Hin.
    repeat (destruct Hin as [Hin|Hin]; [inversion Hin; lia|]). destruct Hin.
  - simpl. lia.
  - reflexivity.
Defined.

(** X7.  On a connected graph the total weight of the result does not
    depend on the order of the [addEdge] calls, although the edges picked
    among equal weights may. *)
Theorem kruskal_weight_order_independent (depth : nat) (n : Z) (es es' : list edge) :
  wf_edges n es -> connected n es -> Permutation es es' ->
  Z.log2 n < Z.of_nat depth ->
  exists K K',
    fst (kruskal depth (build n es)) = Returns K /\
    fst (kruskal depth (build n es')) = Returns K' /\
    total_weight K = total_weight K'.
Proof.
  intros Hwf Hcon Hp Hd.
  assert (Hwf' : wf_edges n es') by (eapply wf_edges_perm; eauto).
  assert (Hcon' : connected n es').
  { eapply connected_incl; [|exact Hcon].
    intros u v w Hin. apply conn_edge with w. eapply Permutation_in; eauto. }
  destruct (kruskal_on_connected depth n es Hwf Hcon Hd)
    as (K & E & HwK & HfK & HaK & HiK & HlK & HcK & HtK).
  destruct (kruskal_on_connected depth n es' Hwf' Hcon' Hd)
    as (K' & E' & HwK' & HfK' & HaK' & HiK' & HlK' & HcK' & HtK').
  exists K, K'. split; [exact E|]. split; [exact E'|].
  apply Z.le_antisymm.
  - apply kruskal_optimal with n es; auto; [lia|].
    split; [|split; [exact HlK' | exact HcK']].
    intros z Hz. eapply Permutation_in; [symmetry; exact Hp | auto].
  - apply kruskal_optimal with n es'; auto; [lia|].
    split; [|split; [exact HlK | exact HcK]].
    intros z Hz. eapply Permutation_in; [exact Hp | auto].
Qed.

Lemma kruskal_weight_order_independent_witness :
  exists K K',
    fst (kruskal 3 (build 3 [(0, 1, 5); (1, 2, 5); (0, 2, 5)])) = Returns K /\
    fst (kruskal 3 (build 3 [(1, 2, 5); (0, 1, 5); (0, 2, 5)])) = Returns K' /\
    total_weight K = total_weight K'.
Proof.
  apply (kruskal_weight_order_independent 3 3).
  - intros u v w Hin. simpl in Hin.
    repeat (destruct Hin as [Hin|Hin]; [inversion Hin; lia|]). destruct Hin.
  - exists 0. split; [lia|]. intros x Hx.
    assert (E : x = 0 \/ x = 1 \/ x = 2) by lia.
    destruct E as [-> | [-> | ->]].
    + apply conn_refl.
    + apply conn_edge with 5. simpl. auto.
    + apply conn_edge with 5. simpl. auto.
  - apply perm_swap.
  - simpl. lia.
Defined.

(** X8.  When no two edges have the same weight, the whole call, outcome
    and object left behind, is the same for every order of the [addEdge]
    calls. *)
Theorem kruskal_distinct_weights_order_independent
        (depth : nat) (n : Z) (es es' : list edge) :
  NoDup (map weight es) -> Permutation es es' ->
  kruskal depth (build n es) = kruskal depth (build n es').
Proof.
  intros Hnd Hp. apply kruskal_ext.
  - destruct (build_fields n es) as [-> _].
    destruct (build_fields n es') as [-> _]. reflexivity.
  - destruct (build_fields n es) as [_ ->].
    destruct (build_fields n es') as [_ ->].
    now apply sorted_perm_distinct.
Qed.

Lemma kruskal_distinct_weights_order_independent_witness :
  kruskal 3 (build 3 [(0, 1, 4); (1, 2, 5); (0, 2, 6)]) =
  kruskal 3 (build 3 [(1, 2, 5); (0, 1, 4); (0, 2, 6)]).
Proof.
  apply (kruskal_distinct_weights_order_independent 3 3).
  - simpl. repeat constructor; simpl; intuition discriminate.
  - apply perm_swap.
Defined.

(** X9.  That [kruskal] rebinds [self.graph] to the sorted list cannot be
    seen through later calls: adding edges after a call and calling again
    gives what the call would give had the first call not been made. *)
Theorem kruskal_sort_unobservable (depth : nat) (g : Graph) (more : list edge) :
  kruskal depth (add_edges (snd (kruskal depth g)) more) =
  kruskal depth (add_edges g more).
Proof.
  apply kruskal_ext.
  - destruct (add_edges_fields (snd (kruskal depth g)) more) as [-> _].
    destruct (add_edges_fields g more) as [-> _].
    now rewrite kruskal_state.
  - destruct (add_edges_fields (snd (kruskal depth g)) more) as [_ ->].
    destruct (add_edges_fields g more) as [_ ->].
    rewrite kruskal_state. cbn [graph]. apply sorted_app_sorted.
Qed.

Section Subscripts.

Lemma getitem_out {A : Type} (site : seq_site) (l : list A) (i : Z) :
  ~ subscript_ok (Z.of_nat (length l)) i ->
  getitem site l i = Raises (IndexError site).
Proof.
  unfold subscript_ok, getitem, norm_index. intros H.
  destruct (Z.ltb_spec i 0).
  - destruct (Z.ltb_spec (i + Z.of_nat (length l)) 0); [reflexivity | lia].
  - destruct (Z.ltb_spec i 0); [lia|].
    destruct (Z.leb_spec (Z.of_nat (length l)) i); [reflexivity | lia].
Qed.

Lemma getitem_neg {A : Type} (site : seq_site) (l : list A) (i : Z) (d : A) :
  - Z.of_nat (length l) <= i < 0 ->
  getitem site l i = Returns (nth (Z.to_nat (i + Z.of_nat (length l))) l d).
Proof.
  intros H. unfold getitem, norm_index.
  destruct (Z.ltb_spec i 0); [|lia].
  destruct (Z.ltb_spec (i + Z.of_nat (length l)) 0); [lia|].
  destruct (Z.leb_spec (Z.of_nat (length l)) (i + Z.of_nat (length l))); [lia|].
  simpl. destruct (nth_error l (Z.to_nat (i + Z.of_nat (length l)))) eqn:E.
  - now rewrite (nth_error_nth _ _ _ E).
  - apply nth_error_None in E. lia.
Qed.

Lemma find_bad (depth : nat) (parent : list Z) (i : Z) :
  (0 < depth)%nat -> ~ subscript_ok (Z.of_nat (length parent)) i ->
  find depth parent i = Raises (IndexError ParentList).
Proof.
  intros Hd H. destruct depth; [lia|]. simpl.
  now rewrite getitem_out.
Qed.

(** [find] on a negative subscript takes one step to the vertex it
    denotes. *)
Lemma find_alias (n : Z) (parent rank : list Z) (M : Z) (depth : nat) (u r : Z) :
  uf_inv n parent rank M -> subscript_ok n u ->
  find depth parent (alias n u) = Returns r ->
  find (S depth) parent u = Returns r.
Proof.
  intros Hinv Hu Hf. unfold alias in Hf.
  destruct (Z.ltb_spec u 0) as [Hneg|Hpos]; [|now apply find_deeper].
  pose proof (inv_plen _ _ _ _ Hinv) as Hpl. unfold subscript_ok in Hu.
  assert (Hr : 0 <= u + n < n) by lia.
  pose proof (inv_parent _ _ _ _ Hinv (u + n) Hr) as Hp.
  change (find (S depth) parent u) with
    (p <- getitem ParentList parent u ;;
     if p =? u then Returns u
     else p <- getitem ParentList parent u ;; find depth parent p).
  rewrite (getitem_neg _ parent u 0) by lia. rewrite Hpl.
  fold (item parent (u + n)). cbn [bind].
  destruct (Z.eqb_spec (item parent (u + n)) u); [lia|].
  destruct depth as [|d]; [discriminate|].
  simpl in Hf. rewrite (getitem_in _ parent (u + n) 0) in Hf by lia.
  fold (item parent (u + n)) in Hf. cbn [bind] in Hf.
  destruct (Z.eqb_spec (item parent (u + n)) (u + n)) as [E|E].
  - inversion Hf; subst r. rewrite E. apply find_root_self; auto; lia.
  - now apply find_deeper.
Qed.

Lemma union_deeper (depth : nat) (parent rank : list Z) (x y : Z) s :
  union depth parent rank x y = Returns s ->
  union (S depth) parent rank x y = Returns s.
Proof.
  unfold union. intros H.
  destruct (find depth parent x) as [xr| |] eqn:Ex; try discriminate.
  destruct (find depth parent y) as [yr| |] eqn:Ey; try discriminate.
  now rewrite (find_deeper _ _ _ _ Ex), (find_deeper _ _ _ _ Ey).
Qed.

Lemma alias_range (n u : Z) : subscript_ok n u -> 0 <= alias n u < n.
Proof.
  unfold subscript_ok, alias. intros H. destruct (Z.ltb_spec u 0); lia.
Qed.

Lemma insert_alias (n : Z) (x : edge) (l : list edge) :
  map (alias_edge n) (insert x l) = insert (alias_edge n x) (map (alias_edge n) l).
Proof.
  induction l as [|y l IH]; cbn [insert map]; [reflexivity|].
  change (weight (alias_edge n x)) with (weight x).
  change (weight (alias_edge n y)) with (weight y).
  destruct (weight x <=? weight y); cbn [map]; [reflexivity | now rewrite IH].
Qed.

Lemma sorted_alias (n : Z) (l : list edge) :
  sorted (map (alias_edge n) l) = map (alias_edge n) (sorted l).
Proof.
  induction l as [|x l IH]; cbn [sorted map]; [reflexivity|].
  now rewrite IH, insert_alias.
Qed.

(** The scan of a list with negative subscripts follows, with one more
    frame for [find], the scan of the list of the vertices they denote. *)
Lemma scan_alias (depth : nat) (n : Z) :
  Z.log2 n < Z.of_nat depth ->
  forall rest parent rank result,
    (forall u v w, In (u, v, w) rest -> subscript_ok n u /\ subscript_ok n v) ->
    loop_inv n parent rank (map (alias_edge n) result) ->
    match scan depth n (map (alias_edge n) rest) (Z.of_nat (length result))
               parent rank (map (alias_edge n) result) with
    | Returns K' =>
        exists K, scan (S depth) n rest (Z.of_nat (length result))
                       parent rank result = Returns K /\
                  map (alias_edge n) K = K'
    | Raises ex =>
        scan (S depth) n rest (Z.of_nat (length result)) parent rank result =
        Raises ex
    | Unfinished => True
    end.
Proof.
  intros Hd. induction rest as [|[[u v] w] rest IH];
    intros parent rank result Hok Hinv; cbn [scan map].
  - destruct (Z.of_nat (length result) <? n - 1); [reflexivity|]. eauto.
  - destruct (Z.ltb_spec (Z.of_nat (length result)) (n - 1)) as [Hlt|Hge];
      [|eauto].
    destruct (Hok u v w (or_introl eq_refl)) as [Hu Hv].
    assert (Hok' : forall a b c, In (a, b, c) rest ->
                                 subscript_ok n a /\ subscript_ok n b).
    { intros a b c Hin. apply (Hok a b c). now right. }
    pose proof (li_uf _ _ _ _ Hinv) as Huf.
    pose proof (uf_inv_tight n parent rank _ Huf (li_pot _ _ _ _ Hinv)) as Hut.
    unfold alias_edge at 1 2. cbn [fst snd].
    destruct (find_spec n parent rank _ depth Hut (alias n u) (alias_range n u Hu))
      as (x & Fx & Rx & Hx & Hfx).
    { pose proof (inv_rank _ _ _ _ Hut _ (alias_range n u Hu)). lia. }
    destruct (find_spec n parent rank _ depth Hut (alias n v) (alias_range n v Hv))
      as (y & Fy & Ry & Hy & Hfy).
    { pose proof (inv_rank _ _ _ _ Hut _ (alias_range n v Hv)). lia. }
    rewrite Fx, Fy, (find_alias n parent rank _ depth u x Hut Hu Fx),
      (find_alias n parent rank _ depth v y Hut Hv Fy). cbn [bind].
    destruct (Z.eqb_spec x y) as [Exy|Nxy]; cbn [negb].
    + apply IH; auto.
    + destruct (union_spec n parent rank _ depth x y Huf Hx Hy Hfx Hfy Nxy)
        as (parent' & rank' & c & p & Un & Hcp & Hpar & Huf' & Hpot');
        [pose proof (Z.log2_nonneg n); lia|].
      rewrite Un, (union_deeper _ _ _ _ _ _ Un). cbn [bind].
      rewrite length_map in Huf'.
      assert (Hinv' : loop_inv n parent' rank'
                        (map (alias_edge n) (result ++ [(u, v, w)]))).
      { rewrite map_app. cbn [map]. unfold alias_edge at 2. cbn [fst snd].
        eapply loop_inv_accept; eauto using alias_range.
        now rewrite length_map. }
      specialize (IH parent' rank' (result ++ [(u, v, w)]) Hok' Hinv').
      rewrite map_app in IH. cbn [map] in IH. unfold alias_edge at 2 in IH.
      cbn [fst snd] in IH.
      replace (Z.of_nat (length (result ++ [(u, v, w)])))
        with (Z.of_nat (length result) + 1) in IH
        by (rewrite length_app; cbn [length]; lia).
      exact IH.
Qed.

End Subscripts.

(** X10.  Vertex numbers are not checked: when the first edge scanned, the
    lightest one, has an end point that is no subscript of a list of
    length [V], the call ends in the [IndexError] of [parent]. *)
Theorem kruskal_vertex_out_of_range (depth : nat) (n : Z) (es rest : list edge)
        (u v w : Z) :
  2 <= n -> (2 <= depth)%nat ->
  sorted es = (u, v, w) :: rest ->
  ~ subscript_ok n u \/ (subscript_ok n u /\ ~ subscript_ok n v) ->
  fst (kruskal depth (build n es)) = Raises (IndexError ParentList).
Proof.
  intros Hn Hd Hs Hbad. rewrite kruskal_scan.
  destruct (build_fields n es) as [-> ->]. rewrite Hs. cbn [scan].
  destruct (Z.ltb_spec 0 (n - 1)) as [_|]; [|lia].
  assert (Hlen : Z.of_nat (length (range n)) = n) by (rewrite range_length; lia).
  destruct Hbad as [Hu | [Hu Hv]].
  - rewrite find_bad; [reflexivity | lia | now rewrite Hlen].
  - pose proof (loop_inv_init n ltac:(lia)) as Hinit.
    pose proof (li_uf _ _ _ _ Hinit) as Huf. cbn [length Z.of_nat] in Huf.
    destruct depth as [|d]; [lia|].
    rewrite (find_alias n _ _ 0 d u (alias n u) Huf Hu).
    + cbn [bind]. rewrite find_bad; [reflexivity | lia | now rewrite Hlen].
    + apply find_root_self; [lia | rewrite Hlen; now apply alias_range|].
      apply item_range. now apply alias_range.
Qed.

Lemma kruskal_vertex_out_of_range_witness :
  fst (kruskal 2 (build 3 [(0, 1, 7); (-1, 3, 2)])) = Raises (IndexError ParentList).
Proof.
  apply (kruskal_vertex_out_of_range 2 3 [(0, 1, 7); (-1, 3, 2)] [(0, 1, 7)] (-1) 3 2).
  - lia.
  - apply le_n.
  - reflexivity.
  - right. unfold subscript_ok. split; lia.
Defined.

(** X11.  A negative vertex number [u] with [-V <= u] is taken as the
    vertex [V + u], as a list subscript is: the call on such a graph ends
    as the call on the graph of the vertices denoted does, given one more
    frame for [find], and returns the corresponding edges as they were
    written. *)
Theorem kruskal_negative_vertices (depth : nat) (n : Z) (es : list edge) :
  0 < n -> Z.log2 n < Z.of_nat depth ->
  (forall u v w, In (u, v, w) es -> subscript_ok n u /\ subscript_ok n v) ->
  (forall K', fst (kruskal depth (build n (map (alias_edge n) es))) = Returns K' ->
     exists K, fst (kruskal (S depth) (build n es)) = Returns K /\
               map (alias_edge n) K = K') /\
  (forall ex, fst (kruskal depth (build n (map (alias_edge n) es))) = Raises ex ->
     fst (kruskal (S depth) (build n es)) = Raises ex).
Proof.
  intros Hn Hd Hok. rewrite !kruskal_scan.
  destruct (build_fields n es) as [-> ->].
  destruct (build_fields n (map (alias_edge n) es)) as [-> ->].
  rewrite sorted_alias.
  pose proof (scan_alias depth n Hd (sorted es) (range n)
                (map (fun _ => 0) (range n)) []) as H.
  cbn [map length Z.of_nat] in H.
  assert (Hok' : forall u v w, In (u, v, w) (sorted es) ->
                               subscript_ok n u /\ subscript_ok n v).
  { intros u v w Hin. apply (Hok u v w). now apply sorted_In. }
  specialize (H Hok' (loop_inv_init n ltac:(lia))).
  split.
  - intros K' E. rewrite E in H. exact H.
  - intros ex E. rewrite E in H. exact H.
Qed.

Lemma kruskal_negative_vertices_witness :
  exists K, fst (kruskal 3 (build 3 [(0, -1, 4); (-2, -1, 1)])) = Returns K /\
            map (alias_edge 3) K = [(1, 2, 1); (0, 2, 4)].
Proof.
  apply (proj1 (kruskal_negative_vertices 2 3 [(0, -1, 4); (-2, -1, 1)]
                  ltac:(lia) ltac:(simpl; lia)
                  ltac:(intros u v w Hin; simpl in Hin;
                        repeat (destruct Hin as [Hin|Hin];
                                [inversion Hin; unfold subscript_ok; lia|]);
                        destruct Hin))).
  reflexivity.
Defined.

(** * Further properties of the regions *)

Section Regions.

Lemma overlaps_iff (a b : Rect) :
  overlaps a b = true <->
  Z.max (left a) (left b) < Z.min (right a) (right b) /\
  Z.max (top a) (top b) < Z.min (bottom a) (bottom b).
Proof.
  unfold overlaps. rewrite andb_true_iff, !Z.gtb_ltb, !Z.ltb_lt. tauto.
Qed.

Lemma contains_iff (a b : Rect) :
  contains a b = true <->
  left a <= left b /\ right b <= right a /\ top a <= top b /\ bottom b <= bottom a.
Proof.
  unfold contains. rewrite !andb_true_iff, !Z.geb_le, !Z.leb_le. tauto.
Qed.

End Regions.

(** X12.  Two rectangles can only overlap when both have positive width
    and positive height: a rectangle with an empty or inverted side
    overlaps nothing, and a rectangle overlaps itself exactly when both
    its sides are positive. *)
Theorem overlaps_needs_positive_size (a b : Rect) :
  (overlaps a b = true ->
   0 < width a /\ 0 < height a /\ 0 < width b /\ 0 < height b) /\
  (overlaps a a = true <-> 0 < width a /\ 0 < height a).
Proof.
  unfold width, height. rewrite !overlaps_iff. lia.
Qed.

Lemma overlaps_needs_positive_size_witness :
  0 < width (mkRect 0 10 0 10) /\ 0 < height (mkRect 0 10 0 10) /\
  0 < width (mkRect 5 15 5 15) /\ 0 < height (mkRect 5 15 5 15).
Proof.
  apply (overlaps_needs_positive_size (mkRect 0 10 0 10) (mkRect 5 15 5 15)).
  reflexivity.
Defined.

(** X13.  Two rectangles that contain each other have the same four
    edges: with reflexivity and transitivity, [contains] is a partial
    order on rectangles. *)
Theorem contains_antisymmetric (a b : Rect) :
  contains a b = true -> contains b a = true -> a = b.
Proof.
  rewrite !contains_iff. destruct a, b. cbn [left right top bottom].
  intros H1 H2. f_equal; lia.
Qed.

Lemma contains_antisymmetric_witness :
  mkRect 1 2 3 4 = mkRect (0 + 1) 2 3 (2 + 2).
Proof.
  apply (contains_antisymmetric (mkRect 1 2 3 4) (mkRect (0 + 1) 2 3 (2 + 2)));
    reflexivity.
Defined.

(** X14.  Containment carries overlap: a rectangle overlaps whatever a
    rectangle it contains overlaps, and it overlaps every rectangle of
    positive width and height that it contains. *)
Theorem contains_carries_overlap (a b c : Rect) :
  contains a b = true ->
  (overlaps b c = true -> overlaps a c = true) /\
  (0 < width b -> 0 < height b -> overlaps a b = true).
Proof.
  unfold width, height. rewrite contains_iff, !overlaps_iff. lia.
Qed.

Lemma contains_carries_overlap_witness :
  overlaps (mkRect 0 10 0 10) (mkRect 4 20 4 20) = true.
Proof.
  apply (contains_carries_overlap
           (mkRect 0 10 0 10) (mkRect 2 5 2 5) (mkRect 4 20 4 20));
    reflexivity.
Defined.

(** X15.  A contained rectangle whose edges are in order is no larger than
    its container in width, height, perimeter and area. *)
Theorem contains_bounds_size (a b : Rect) :
  contains a b = true -> left b <= right b -> top b <= bottom b ->
  width b <= width a /\ height b <= height a /\
  perimeter b <= perimeter a /\ area b <= area a.
Proof.
  unfold perimeter, area, width, height. rewrite contains_iff.
  intros H Hw Hh. repeat split; try lia.
  apply Z.mul_le_mono_nonneg; lia.
Qed.

Lemma contains_bounds_size_witness :
  width (mkRect 2 5 2 6) <= width (mkRect 0 10 0 10) /\
  height (mkRect 2 5 2 6) <= height (mkRect 0 10 0 10) /\
  perimeter (mkRect 2 5 2 6) <= perimeter (mkRect 0 10 0 10) /\
  area (mkRect 2 5 2 6) <= area (mkRect 0 10 0 10).
Proof.
  apply (contains_bounds_size (mkRect 0 10 0 10) (mkRect 2 5 2 6));
    [reflexivity | simpl; lia | simpl; lia].
Defined.

Section CentrePixel.

(** The writing of [a / 2] for a non-zero [a] of at most 53 bits. *)
Lemma truediv2_shape (a : Z) :
  a <> 0 -> Z.abs a < 2 ^ 53 ->
  exists mz k,
    truediv2 a = FOk (S754_finite (a <? 0) mz (-1 - k)) /\
    0 <= k /\ Zpos mz = Z.abs a * 2 ^ k.
Proof.
  intros Hne Ha. unfold truediv2.
  destruct a as [|m|m]; [contradiction | |]; simpl binary_normalize.
  - destruct (binary_round_exact false m (-1)) as (mz & ez & -> & k & Hk & Hm & -> & _);
      [lia | lia |].
    exists mz, k. auto.
  - destruct (binary_round_exact true m (-1)) as (mz & ez & -> & k & Hk & Hm & -> & _);
      [lia | lia |].
    exists mz, k. auto.
Qed.

(** Rounding a half-integer [a / 2]: the integer reached. *)
Lemma around_half (a : Z) :
  Z.abs a < 2 ^ 53 ->
  exists f n,
    truediv2 a = FOk f /\ is_finite (around f) = true /\
    to_R (around f) = IZR n /\
    Z.abs (2 * n - a) <= 1 /\ (Z.odd a = true -> Z.even n = true).
Proof.
  intros Ha. destruct (Z.eq_dec a 0) as [->|Hne].
  - exists (S754_zero false), 0. repeat split; auto. discriminate.
  - destruct (truediv2_shape a Hne Ha) as (mz & k & Ef & Hk & Hm).
    exists (S754_finite (a <? 0) mz (-1 - k)). rewrite Ef.
    set (A := Z.abs a) in *. assert (HA : 0 < A) by (unfold A; lia).
    assert (HP : 0 < 2 ^ k) by (apply Z.pow_pos_nonneg; lia).
    pose proof (Z.div_mod A 2 ltac:(lia)) as Hdm.
    pose proof (Z.mod_pos_bound A 2 ltac:(lia)) as Hmb.
    assert (Hq : Zpos mz / 2 ^ (- (-1 - k)) = A / 2).
    { replace (- (-1 - k)) with (1 + k) by lia.
      rewrite Z.pow_add_r by lia. change (2 ^ 1) with 2. rewrite Hm.
      apply Z.div_mul_cancel_r; lia. }
    assert (Hr : Zpos mz mod 2 ^ (- (-1 - k)) = (A mod 2) * 2 ^ k).
    { replace (- (-1 - k)) with (1 + k) by lia.
      rewrite Z.pow_add_r by lia. change (2 ^ 1) with 2. rewrite Hm.
      apply Z.mul_mod_distr_r; lia. }
    assert (Hpow : 2 ^ (- (-1 - k)) = 2 * 2 ^ k).
    { replace (- (-1 - k)) with (1 + k) by lia.
      rewrite Z.pow_add_r by lia. reflexivity. }
    unfold around. destruct (Z.leb_spec 0 (-1 - k)) as [H|_]; [lia|].
    cbv zeta. rewrite Hq, Hr, Hpow.
    set (q := A / 2) in *. set (P := 2 ^ k) in *.
    set (n := if 2 * (A mod 2 * P) <? 2 * P then q
              else if 2 * P <? 2 * (A mod 2 * P) then q + 1
              else if Z.even q then q else q + 1).
    assert (Hn : 0 <= n /\ Z.abs (2 * n - A) <= 1 /\
                 (A mod 2 = 1 -> Z.even n = true)).
    { unfold n. destruct (Z.eq_dec (A mod 2) 0) as [E0|E0].
      - rewrite E0. destruct (Z.ltb_spec (2 * (0 * P)) (2 * P)); [|lia].
        split; [unfold q; apply Z.div_pos; lia|]. split; [lia|]. lia.
      - assert (E1 : A mod 2 = 1) by lia. rewrite E1.
        destruct (Z.ltb_spec (2 * (1 * P)) (2 * P)); [lia|].
        destruct (Z.ltb_spec (2 * P) (2 * (1 * P))); [lia|].
        assert (0 <= q) by (unfold q; apply Z.div_pos; lia).
        destruct (Z.even q) eqn:Ev.
        + split; [lia|]. split; [lia|]. auto.
        + split; [lia|]. split; [lia|]. intros _.
          rewrite Z.even_add, Ev. reflexivity. }
    destruct Hn as (Hn0 & Hn1 & Hn2).
    assert (Hbound : Z.abs (cond_Zopp (a <? 0) n) < 2 ^ 53).
    { destruct (a <? 0); simpl; lia. }
    destruct (binary_normalize_exact (cond_Zopp (a <? 0) n) 0 (a <? 0) Hbound
                ltac:(lia)) as (Hnan & Hinf & Hv).
    exists (cond_Zopp (a <? 0) n). split; [reflexivity|]. split; [|split].
    + destruct (binary_normalize prec emax (cond_Zopp (a <? 0) n) 0 (a <? 0))
        as [s|s| |s m e]; try reflexivity; [now destruct (Hinf s) | contradiction].
    + rewrite Hv. simpl. lra.
    + destruct (Z.ltb_spec a 0); simpl cond_Zopp; split; try lia.
      * intros Ho. rewrite Z.even_opp. apply Hn2.
        apply Z.odd_spec in Ho. destruct Ho as [j Hj]. unfold A in *. lia.
      * intros Ho. apply Hn2.
        apply Z.odd_spec in Ho. destruct Ho as [j Hj]. unfold A in *. lia.
Qed.

End CentrePixel.

(** X17.  The centre of a rectangle whose edges are in order, the sums of
    opposite edges being below [2^53] in size, is a pair of finite floats
    lying between its edges, and between the edges of every rectangle
    that contains it.  Without the bound it need not: the centre of
    [Rect(2^53+1, 2^53+1, 0, 0)] is left of its left edge. *)
Theorem center_inside (a b : Rect) :
  left b <= right b -> top b <= bottom b -> contains a b = true ->
  Z.abs (left b + right b) < 2 ^ 53 -> Z.abs (bottom b + top b) < 2 ^ 53 ->
  (exists cx cy,
     center b = FOk (cx, cy) /\
     is_finite cx = true /\ is_finite cy = true /\
     (IZR (left b) <= to_R cx <= IZR (right b) /\
      IZR (top b) <= to_R cy <= IZR (bottom b) /\
      IZR (left a) <= to_R cx <= IZR (right a) /\
      IZR (top a) <= to_R cy <= IZR (bottom a))%R) /\
  (exists cx cy,
     center (mkRect (2 ^ 53 + 1) (2 ^ 53 + 1) 0 0) = FOk (cx, cy) /\
     (to_R cx < IZR (left (mkRect (2 ^ 53 + 1) (2 ^ 53 + 1) 0 0)))%R).
Proof.
  rewrite contains_iff. intros Hw Hh (H1 & H2 & H3 & H4) Hx Hy. split.
  - unfold center.
    destruct (truediv2_exact _ Hx) as (cx & Ex & Vx).
    destruct (truediv2_exact _ Hy) as (cy & Ey & Vy).
    exists cx, cy. rewrite Ex, Ey. split; [reflexivity|].
    split; [exact (truediv2_finite _ _ Ex)|].
    split; [exact (truediv2_finite _ _ Ey)|].
    rewrite plus_IZR in Vx, Vy.
    apply IZR_le in Hw, Hh, H1, H2, H3, H4. repeat split; lra.
  - eexists. eexists. split; [vm_compute; reflexivity|]. simpl. lra.
Qed.

Lemma center_inside_witness :
  exists cx cy,
    center (mkRect 2 5 2 6) = FOk (cx, cy) /\
    is_finite cx = true /\ is_finite cy = true /\
    (IZR (left (mkRect 2 5 2 6)) <= to_R cx <= IZR (right (mkRect 2 5 2 6)) /\
     IZR (top (mkRect 2 5 2 6)) <= to_R cy <= IZR (bottom (mkRect 2 5 2 6)) /\
     IZR (left (mkRect 0 10 0 10)) <= to_R cx <= IZR (right (mkRect 0 10 0 10)) /\
     IZR (top (mkRect 0 10 0 10)) <= to_R cy <= IZR (bottom (mkRect 0 10 0 10)))%R.
Proof.
  apply (center_inside (mkRect 0 10 0 10) (mkRect 2 5 2 6));
    simpl; try reflexivity; lia.
Defined.

(** X19.  While the sums of opposite edges are below [2^53] in size,
    [center_px] is a pair of finite floats that stand for integers within
    half a pixel of the midpoint in each direction and, for edges in
    order, between the edges; when the midpoint falls half-way between
    two pixels (the sum of the edges is odd) [np.around] sends it to the
    even one.  Without the bound the pixel can be a whole pixel off: for
    [Rect(0, 2^54+2, 0, 0)] it is [2^53], the midpoint being [2^53+1]. *)
Theorem center_px_nearest_even (r : Rect) :
  Z.abs (left r + right r) < 2 ^ 53 -> Z.abs (bottom r + top r) < 2 ^ 53 ->
  (exists px py nx ny,
     center_px r = FOk (px, py) /\
     is_finite px = true /\ is_finite py = true /\
     to_R px = IZR nx /\ to_R py = IZR ny /\
     Z.abs (2 * nx - (left r + right r)) <= 1 /\
     Z.abs (2 * ny - (bottom r + top r)) <= 1 /\
     (left r <= right r -> left r <= nx <= right r) /\
     (top r <= bottom r -> top r <= ny <= bottom r) /\
     (Z.odd (left r + right r) = true -> Z.even nx = true) /\
     (Z.odd (bottom r + top r) = true -> Z.even ny = true)) /\
  (exists px py,
     center_px (mkRect 0 (2 ^ 54 + 2) 0 0) = FOk (px, py) /\
     to_R px = IZR (2 ^ 53)).
Proof.
  intros Hx Hy. split.
  - unfold center_px, center.
    destruct (around_half _ Hx) as (fx & nx & Ex & Fx & Vx & Dx & Ox).
    destruct (around_half _ Hy) as (fy & ny & Ey & Fy & Vy & Dy & Oy).
    exists (around fx), (around fy), nx, ny. rewrite Ex, Ey. cbn [fbind].
    split; [reflexivity|]. split; [exact Fx|]. split; [exact Fy|].
    split; [exact Vx|]. split; [exact Vy|].
    split; [exact Dx|]. split; [exact Dy|].
    split; [lia|]. split; [lia|]. split; [exact Ox | exact Oy].
  - eexists. eexists. split; [vm_compute; reflexivity|]. simpl. lra.
Qed.

Lemma center_px_nearest_even_witness :
  exists px py nx ny,
    center_px (mkRect 0 5 0 3) = FOk (px, py) /\
    is_finite px = true /\ is_finite py = true /\
    to_R px = IZR nx /\ to_R py = IZR ny /\
    Z.abs (2 * nx - (left (mkRect 0 5 0 3) + right (mkRect 0 5 0 3))) <= 1 /\
    Z.abs (2 * ny - (bottom (mkRect 0 5 0 3) + top (mkRect 0 5 0 3))) <= 1 /\
    (left (mkRect 0 5 0 3) <= right (mkRect 0 5 0 3) ->
     left (mkRect 0 5 0 3) <= nx <= right (mkRect 0 5 0 3)) /\
    (top (mkRect 0 5 0 3) <= bottom (mkRect 0 5 0 3) ->
     top (mkRect 0 5 0 3) <= ny <= bottom (mkRect 0 5 0 3)) /\
    (Z.odd (left (mkRect 0 5 0 3) + right (mkRect 0 5 0 3)) = true ->
     Z.even nx = true) /\
    (Z.odd (bottom (mkRect 0 5 0 3) + top (mkRect 0 5 0 3)) = true ->
     Z.even ny = true).
Proof.
  apply (center_px_nearest_even (mkRect 0 5 0 3)); simpl; lia.
Defined.

(** * Further properties of the labels *)

(** X18.  A label has no text until one is set: reading [text] on a label
    as constructed raises [AttributeError]; once set, [text] returns the
    value set last, and setting it leaves the tag, the flag and the
    geometry alone. *)
Theorem label_text_set_before_read (le ri to bo : Z) (tg : string) (l : Label) :
  LabelM.text (LabelM.init le ri to bo tg) = Raises (AttributeError "Label" "_text") /\
  (forall t, LabelM.text (LabelM.text_set l t) = Returns t) /\
  (forall t t', LabelM.text (LabelM.text_set (LabelM.text_set l t) t') = Returns t') /\
  (forall t, label_panel (LabelM.text_set l t) = label_panel l) /\
  (forall t, LabelM.text l = Returns t -> _text l = Some t).
Proof.
  split; [reflexivity|]. split; [reflexivity|]. split; [reflexivity|].
  split; [reflexivity|].
  intros t. unfold LabelM.text. destruct (_text l); [|discriminate].
  intros H. now inversion H.
Qed.

Lemma label_text_set_before_read_witness :
  _text (LabelM.text_set (LabelM.init 0 4 0 2 "b") "1a") = Some "1a"%string.
Proof.
  apply (label_text_set_before_read 0 4 0 2 "b"
           (LabelM.text_set (LabelM.init 0 4 0 2 "b") "1a")).
  reflexivity.
Defined.

(** * Further properties of the figure *)

Section FigureFacts.

(** The writing of [float(w)] for a positive [w] of at most 53 bits. *)
Lemma of_int_shape (w : Z) :
  0 < w < 2 ^ 53 ->
  exists mz k,
    of_int w = FOk (S754_finite false mz (0 - k)) /\
    0 <= k <= 52 /\ Zpos mz = w * 2 ^ k /\ Zpos (digits2_pos mz) = 53.
Proof.
  intros Hw. unfold of_int. destruct w as [|m|m]; [lia | | lia].
  simpl binary_normalize.
  destruct (binary_round_exact false m 0) as (mz & ez & -> & k & Hk & Hm & -> & Hd);
    [lia | lia |].
  exists mz, k. split; [reflexivity|]. split; [|auto].
  split; [lia|].
  destruct (Z.le_gt_cases k 52) as [H|H]; [exact H|]. exfalso.
  assert (2 ^ 53 <= 2 ^ k) by (apply Z.pow_le_mono_r; lia).
  assert (Zpos mz < 2 ^ 53).
  { pose proof (Pos.size_gt mz) as Hs. rewrite digits2_size in Hd.
    apply Pos2Z.pos_lt_pos in Hs. rewrite Pos2Z.inj_pow, Hd in Hs. exact Hs. }
  nia.
Qed.

Lemma shr_1_xO (m : positive) :
  shr_1 {| shr_m := Zpos m~0; shr_r := false; shr_s := false |} =
  {| shr_m := Zpos m; shr_r := false; shr_s := false |}.
Proof. reflexivity. Qed.

Lemma iter_pos_comm {A : Type} (f : A -> A) (p : positive) (x : A) :
  iter_pos f p (f x) = f (iter_pos f p x).
Proof.
  revert x. induction p as [p IH|p IH|]; intros x; simpl; try reflexivity.
  - now rewrite !IH.
  - now rewrite !IH.
Qed.

Lemma iter_pos_succ {A : Type} (f : A -> A) (p : positive) (x : A) :
  iter_pos f (Pos.succ p) x = iter_pos f p (f x).
Proof.
  revert x. induction p as [p IH|p IH|]; intros x; simpl; try reflexivity.
  rewrite !IH, !iter_pos_comm. reflexivity.
Qed.

Lemma shr_iter_xO (k m : positive) :
  iter_pos shr_1 k
    {| shr_m := Zpos (Pos.iter xO m k); shr_r := false; shr_s := false |} =
  {| shr_m := Zpos m; shr_r := false; shr_s := false |}.
Proof.
  induction k as [|k IH] using Pos.peano_ind.
  - reflexivity.
  - rewrite iter_pos_succ, Pos.iter_succ, shr_1_xO. exact IH.
Qed.

(** Halving a float of 53 bits well above the smallest ones lowers its
    exponent by one. *)
Lemma mul_half_shape (s : bool) (mz : positive) (e : Z) :
  Zpos (digits2_pos mz) = 53 -> -1073 <= e <= 971 ->
  mul (S754_finite s mz e) half = S754_finite s mz (e - 1).
Proof.
  intros Hd He. unfold mul, half.
  change (binary_normalize prec emax 1 (-1) false)
    with (S754_finite false 4503599627370496 (-53)).
  unfold SFmul. rewrite xorb_false_r, Pos.mul_comm.
  change (4503599627370496 * mz)%positive with (Pos.iter xO mz 52).
  unfold binary_round_aux.
  assert (Hs : shr_fexp prec emax (Zpos (Pos.iter xO mz 52)) (e + -53) loc_Exact =
               ({| shr_m := Zpos mz; shr_r := false; shr_s := false |}, e - 1)).
  { unfold shr_fexp. cbn [Zdigits2]. rewrite iter_xO_digits, Hd.
    replace (fexp prec emax (53 + 52 + (e + -53)) - (e + -53)) with 52
      by (unfold fexp, emin, prec, emax; lia).
    unfold shr. cbn [shr_record_of_loc]. rewrite shr_iter_xO. f_equal. lia. }
  rewrite Hs. cbn [shr_m loc_of_shr_record round_nearest_even].
  assert (Hs' : shr_fexp prec emax (Zpos mz) (e - 1) loc_Exact =
               ({| shr_m := Zpos mz; shr_r := false; shr_s := false |}, e - 1)).
  { unfold shr_fexp. cbn [Zdigits2]. rewrite Hd.
    replace (fexp prec emax (53 + (e - 1)) - (e - 1)) with 0
      by (unfold fexp, emin, prec, emax; lia).
    reflexivity. }
  rewrite Hs'. cbn [shr_m].
  destruct (Z.leb_spec (e - 1) (emax - prec)) as [_|H]; [reflexivity|].
  unfold emax, prec in H. lia.
Qed.

(** [w * 0.5] for an int [w] of at most 53 bits, then cut to an int. *)
Lemma int_of_half (w : Z) :
  0 <= w < 2 ^ 53 ->
  exists f, of_int w = FOk f /\ to_int (mul f half) = Some (w / 2) /\
            is_finite (mul f half) = true /\ (2 * to_R (mul f half) = IZR w)%R.
Proof.
  intros Hw. destruct (Z.eq_dec w 0) as [->|Hne].
  - exists (S754_zero false). repeat split. simpl. lra.
  - destruct (of_int_shape w ltac:(lia)) as (mz & k & -> & Hk & Hm & Hd).
    exists (S754_finite false mz (0 - k)). split; [reflexivity|].
    rewrite mul_half_shape by (auto; lia).
    split; [|split; [reflexivity|]].
    + unfold to_int. destruct (Z.leb_spec 0 (0 - k - 1)) as [H|_]; [lia|].
      cbn [cond_Zopp]. f_equal.
      replace (- (0 - k - 1)) with (1 + k) by lia.
      rewrite Z.pow_add_r by lia. change (2 ^ 1) with 2. rewrite Hm.
      apply Z.div_mul_cancel_r; [lia|].
      apply Z.pow_nonzero; lia.
    + replace (0 - k - 1) with (-1 - k) by lia.
      rewrite (to_R_scaled false (Z.to_pos w) mz (-1) k); [| lia | rewrite Z2Pos.id; lia].
      cbn [cond_Zopp]. rewrite Z2Pos.id by lia. simpl. lra.
Qed.

End FigureFacts.

(** X20.  [Figure.__init__] fails on a subscript of [img.shape] exactly
    when the shape has fewer than two entries.  For a width and a height
    from 0 to below [2^53] it builds the figure, and its two centre
    coordinates are not computed alike: the first is the int
    [width // 2], the second is the float that is exactly half the
    height, which stands for no integer when the height is odd.  Beyond
    53 bits the first coordinate is no longer [width // 2]: for a width
    of [2^53+3] it is [2^52+2]. *)
Theorem figure_center_asymmetric
        (ndarray Plot Photo : Type) (shape : ndarray -> list Z) (i : ndarray)
        (pa : option (list Panel)) (pl : option (list Plot))
        (ph : option (list Photo)) :
  (FigureM.init ndarray Plot Photo shape i pa pl ph
     = FigureM.Fails _ _ _ FigureM.ShapeIndexError <->
   (length (shape i) < 2)%nat) /\
  (forall w h, nth_error (shape i) 0 = Some w -> nth_error (shape i) 1 = Some h ->
     0 <= w < 2 ^ 53 -> 0 <= h < 2 ^ 53 ->
     exists f,
       FigureM.init ndarray Plot Photo shape i pa pl ph = FigureM.Built _ _ _ f /\
       FigureM.img _ _ _ f = i /\
       FigureM.width _ _ _ f = w /\ FigureM.height _ _ _ f = h /\
       FigureM.panels _ _ _ f = pa /\ FigureM.plots _ _ _ f = pl /\
       FigureM.photos _ _ _ f = ph /\
       fst (FigureM.center _ _ _ f) = w / 2 /\
       is_finite (snd (FigureM.center _ _ _ f)) = true /\
       (2 * to_R (snd (FigureM.center _ _ _ f)) = IZR h)%R /\
       (Z.odd h = true ->
        forall z, to_R (snd (FigureM.center _ _ _ f)) <> IZR z)) /\
  (shape i = [2 ^ 53 + 3; 1] ->
   exists f,
     FigureM.init ndarray Plot Photo shape i pa pl ph = FigureM.Built _ _ _ f /\
     fst (FigureM.center _ _ _ f) = 2 ^ 52 + 2).
Proof.
  unfold FigureM.init. split; [|split].
  - destruct (shape i) as [|w [|h t]]; cbn [nth_error length]; split; intros H;
      try reflexivity; try lia.
    exfalso. destruct (of_int w); [|discriminate].
    destruct (to_int (mul a half)); [|discriminate].
    destruct (of_int h); discriminate.
  - intros w h -> -> Hw Hh.
    destruct (int_of_half w Hw) as (fw & -> & -> & _ & _).
    destruct (int_of_half h Hh) as (fh & -> & _ & Hfin & Hv).
    eexists. split; [reflexivity|].
    cbn [FigureM.img FigureM.width FigureM.height FigureM.center
         FigureM.panels FigureM.plots FigureM.photos fst snd].
    repeat split; auto.
    intros Ho z Hz. apply Z.odd_spec in Ho. destruct Ho as [k Hk].
    assert (E : IZR h = IZR (2 * z)) by (rewrite mult_IZR; lra).
    apply eq_IZR in E. lia.
  - intros ->. eexists. split; [vm_compute; reflexivity|]. reflexivity.
Qed.

Lemma figure_center_asymmetric_witness :
  exists f,
    FigureM.init (list Z) unit unit (fun sh => sh) [5; 7] None None None
      = FigureM.Built _ _ _ f /\
    FigureM.img _ _ _ f = [5; 7] /\
    FigureM.width _ _ _ f = 5 /\ FigureM.height _ _ _ f = 7 /\
    FigureM.panels _ _ _ f = None /\ FigureM.plots _ _ _ f = None /\
    FigureM.photos _ _ _ f = None /\
    fst (FigureM.center _ _ _ f) = 5 / 2 /\
    is_finite (snd (FigureM.center _ _ _ f)) = true /\
    (2 * to_R (snd (FigureM.center _ _ _ f)) = IZR 7)%R /\
    (Z.odd 7 = true ->
     forall z, to_R (snd (FigureM.center _ _ _ f)) <> IZR z).
Proof.
  apply (proj1 (proj2 (figure_center_asymmetric (list Z) unit unit (fun sh => sh)
                         [5; 7] None None None)) 5 7);
    try reflexivity; lia.
Defined.
